(** * Sampling module of LogicalVision2 ([src/cpp/sampler.hpp])

    A shallow embedding of the geometry kernel (3-D Bresenham rasterisation
    of lines and segments), of the local statistics (local variance, Scharr
    gradient), of the threshold samplers with thinning, of the guard of the
    ellipse fitter and of the histogram comparison, followed by the
    properties of these functions.

    Conventions of the embedding.
    - A [cv::Scalar] that holds a point, a direction, a radius or a bound
      holds integer values; it is a triple of [Z].  The C++ [int] variables
      read from it are [Z] as well: signed overflow is undefined in C++, so
      the embedding describes the executions in which no [int] overflows.
    - A [double] that holds a statistic (mean, variance, gradient,
      divergence) is a real number of [R]: rounding is not modelled.
      Division and square root are the total functions of [R]: where the
      code divides 0.0 by 0.0 or takes the root of a negative number its
      result is a NaN, which [R] does not have, and the value of the
      embedding is not the value of the code.  A property that depends on
      such a value carries the hypothesis that excludes the case (at least
      2 collected points for the local variance).
    - The ellipsoid test that selects the pixels of a neighbourhood is a
      decision taken on rounded values: it is computed in binary64
      arithmetic, with the primitive floats of the kernel.
    - The components of a direction need not be integers.  The code only
      compares them with 0 and converts them to [int], both of which are
      exact: [get_line_points_double] takes them as real numbers, and
      [get_line_points] is its restriction to integer-valued directions.
    - A recursion or a [while] loop whose termination depends on the data
      takes a [fuel] argument and answers [OutOfFuel] when it is exhausted.
    - Reading [*v.begin()] or [*v.rbegin()] of an empty vector has no defined
      result in C++; the embedding answers [Undefined]. *)

From Stdlib Require Import ZArith List Lia Bool FinFun.
From Stdlib Require Floats Uint63.
From Stdlib Require Import Reals Lra.
Import ListNotations.

Open Scope Z_scope.

(** ** Results of fallible or fuel-bounded computations *)

Inductive result (A : Type) : Type :=
| Ret (a : A)        (* normal return *)
| Undefined          (* the C++ code reads an element that does not exist *)
| AssertFailed       (* an [assert] of the code does not hold *)
| OutOfFuel.         (* the fuel of the embedding is exhausted *)

Arguments Ret {A} a.
Arguments Undefined {A}.
Arguments AssertFailed {A}.
Arguments OutOfFuel {A}.

Definition bind {A B : Type} (m : result A) (k : A -> result B) : result B :=
  match m with
  | Ret a => k a
  | Undefined => Undefined
  | AssertFailed => AssertFailed
  | OutOfFuel => OutOfFuel
  end.

Notation "x <- m ;; k" := (bind m (fun x => k))
  (at level 61, m at next level, right associativity).

(** ** Data model *)

(** An integer-valued [cv::Scalar]: [point[0]], [point[1]], [point[2]] are
    column, row and frame. *)
Record Scalar : Type := mkScalar { s0 : Z; s1 : Z; s2 : Z }.

(** A real-valued [cv::Scalar] (a colour, a per-channel sum). *)
Record ScalarR : Type := mkScalarR { r0 : R; r1 : R; r2 : R }.

(** A [Vec3b] pixel: three channel values. *)
Record Vec3b : Type := mkVec3b { ch0 : Z; ch1 : Z; ch2 : Z }.

(** The frame sequence [vector<Mat> *images]: the size of frame 0, the
    number of frames, and the pixel lookup [img.at<Vec3b>(row, col)] of
    frame [frame]. *)
Record Images : Type := mkImages {
  cols : Z;
  rows : Z;
  size : Z;
  at_ : Z -> Z -> Z -> Vec3b   (* frame, row, column *)
}.

Inductive axis : Type := AX | AY | AZ.

Definition get (a : axis) (p : Scalar) : Z :=
  match a with AX => s0 p | AY => s1 p | AZ => s2 p end.

(** [p[a] += k] *)
Definition add_at (a : axis) (k : Z) (p : Scalar) : Scalar :=
  match a with
  | AX => mkScalar (s0 p + k) (s1 p) (s2 p)
  | AY => mkScalar (s0 p) (s1 p + k) (s2 p)
  | AZ => mkScalar (s0 p) (s1 p) (s2 p + k)
  end.

Definition Scalar_eqb (p q : Scalar) : bool :=
  (s0 p =? s0 q) && (s1 p =? s1 q) && (s2 p =? s2 q).

(** ** Geometry kernel *)

Definition out_of_canvas (point bound : Scalar) : bool :=
  let x := s0 point in
  let y := s1 point in
  let z := s2 point in
  if (x >=? 0) && (x <=? s0 bound - 1) &&
     (y >=? 0) && (y <=? s1 bound - 1) &&
     (z >=? 0) && (z <=? s2 bound - 1)
  then false
  else true.

Definition point_cont (p1 p2 : Scalar) : bool :=
  let v0 := Z.abs (s0 p1 - s0 p2) in
  let v1 := Z.abs (s1 p1 - s1 p2) in
  let v2 := Z.abs (s2 p1 - s2 p2) in
  if Z.max (Z.max v0 v1) v2 <? 2 then true else false.

(** The macro [SWAP(a, b) {a = a + b; b = a - b; a = a - b;}]. *)
Definition SWAP (ab : Z * Z) : Z * Z :=
  let '(a, b) := ab in
  let a := a + b in
  let b := a - b in
  let a := a - b in
  (a, b).

(** The state of one stepping loop: the current [x, y, z] and the two error
    terms. *)
Record walk : Type := mkWalk { cur : Scalar; err_1 : Z; err_2 : Z }.

(** One iteration of a stepping loop, before the canvas test.  The three
    stepping loops of [bresenham] (and of [get_line_seg_points]) are this
    body with the roles of the axes exchanged: [d] is the driving axis,
    [m1] the axis stepped by [err_1] and [m2] the axis stepped by [err_2];
    [d2 a] is the doubled absolute delta of axis [a].
<<
      if (err_1 > 0) { m1 += m1_inc; err_1 -= d2[d]; }
      if (err_2 > 0) { m2 += m2_inc; err_2 -= d2[d]; }
      err_1 += d2[m1]; err_2 += d2[m2]; d += d_inc;
>> *)
Definition line_step (d m1 m2 : axis) (d2 : axis -> Z) (inc : Scalar)
    (w : walk) : walk :=
  let p := cur w in
  let e1 := err_1 w in
  let e2 := err_2 w in
  let '(p, e1) :=
    if e1 >? 0 then (add_at m1 (get m1 inc) p, e1 - d2 d) else (p, e1) in
  let '(p, e2) :=
    if e2 >? 0 then (add_at m2 (get m2 inc) p, e2 - d2 d) else (p, e2) in
  let e1 := e1 + d2 m1 in
  let e2 := e2 + d2 m2 in
  let p := add_at d (get d inc) p in
  mkWalk p e1 e2.

(** [for (int cont = 0; cont < n; cont++) { step; if (keep point)
    points.push_back(point); else break; }].  The loop returns the walk it
    stopped at (at a [break], the point that was not pushed) and the
    vector. *)
Fixpoint line_loop (d m1 m2 : axis) (d2 : axis -> Z) (inc : Scalar)
    (keep : Scalar -> bool) (n : nat) (w : walk) (points : list Scalar)
    : walk * list Scalar :=
  match n with
  | O => (w, points)
  | S n' =>
      let w' := line_step d m1 m2 d2 inc w in
      if keep (cur w')
      then line_loop d m1 m2 d2 inc keep n' w' (points ++ [cur w'])
      else (w', points)
  end.

(** The three consecutive [if] blocks shared by [bresenham] and by the body
    of the [while] loop of [get_line_seg_points]. *)
Definition line_blocks (Adx Ady Adz : Z) (inc : Scalar)
    (keep : Scalar -> bool) (p : Scalar) (points : list Scalar)
    : Scalar * list Scalar :=
  let dx2 := Adx * 2 in
  let dy2 := Ady * 2 in
  let dz2 := Adz * 2 in
  let d2 := fun a => match a with AX => dx2 | AY => dy2 | AZ => dz2 end in
  let '(p, points) :=
    if (Adx >=? Ady) && (Adx >=? Adz)
    then let '(w, pts) :=
           line_loop AX AY AZ d2 inc keep (Z.to_nat Adx)
                     (mkWalk p (dy2 - Adx) (dz2 - Adx)) points in
         (cur w, pts)
    else (p, points) in
  let '(p, points) :=
    if (Ady >? Adx) && (Ady >=? Adz)
    then let '(w, pts) :=
           line_loop AY AX AZ d2 inc keep (Z.to_nat Ady)
                     (mkWalk p (dx2 - Ady) (dz2 - Ady)) points in
         (cur w, pts)
    else (p, points) in
  let '(p, points) :=
    if (Adz >? Adx) && (Adz >? Ady)
    then let '(w, pts) :=
           line_loop AZ AY AX d2 inc keep (Z.to_nat Adz)
                     (mkWalk p (dy2 - Adz) (dx2 - Adz)) points in
         (cur w, pts)
    else (p, points) in
  (p, points).

(** [bresenham(current, direction, inc, bound, points)]: the recursive ray
    extension; [points] is the vector the function appends to.  The
    function reads [direction] through [int dx = direction[0]],
    [int dy = direction[1]], [int dz = direction[2]] only, and passes it on
    unchanged: here [direction] holds these three [int] values. *)
Fixpoint bresenham (fuel : nat) (current direction inc bound : Scalar)
    (points : list Scalar) : result (list Scalar) :=
  match fuel with
  | O => OutOfFuel
  | S fuel' =>
      let Adx := Z.abs (s0 direction) in
      let Ady := Z.abs (s1 direction) in
      let Adz := Z.abs (s2 direction) in
      let '(point, points) :=
        line_blocks Adx Ady Adz inc
                    (fun q => negb (out_of_canvas q bound)) current points in
      if negb (out_of_canvas point bound)
      then bresenham fuel' point direction inc bound points
      else Ret points
  end.

(** [get_line_points(point, direction, bound)] for a direction with integer
    components; [get_line_points_double] below takes any direction, and
    agrees with this function on the integer ones
    ([get_line_points_integral]). *)
Definition get_line_points (fuel : nat) (point direction bound : Scalar)
    : result (list Scalar) :=
  let re := [] in
  if (s0 direction =? 0) && (s1 direction =? 0) && (s2 direction =? 0)
  then Ret re
  else
    let c_inc := if s0 direction >? 0 then 1 else -1 in
    let r_inc := if s1 direction >? 0 then 1 else -1 in
    let d_inc := if s2 direction >? 0 then 1 else -1 in
    let inc := mkScalar c_inc r_inc d_inc in
    re <- bresenham fuel point direction inc bound re ;;
    let re := rev re in
    let re := re ++ [point] in
    let c_inc := -1 * c_inc in
    let r_inc := -1 * r_inc in
    let d_inc := -1 * d_inc in
    let inc := mkScalar c_inc r_inc d_inc in
    re <- bresenham fuel point direction inc bound re ;;
    Ret (rev re).

(** The [while] loop of [get_line_seg_points]. *)
Fixpoint seg_while (fuel : nat) (Adx Ady Adz : Z) (inc target bound : Scalar)
    (p : Scalar) (re : list Scalar) : result (list Scalar) :=
  match fuel with
  | O => OutOfFuel
  | S fuel' =>
      if negb (out_of_canvas p bound) && negb (Scalar_eqb p target)
      then
        let '(p, re) :=
          line_blocks Adx Ady Adz inc
            (fun q => negb (out_of_canvas q bound) && negb (Scalar_eqb q target))
            p re in
        seg_while fuel' Adx Ady Adz inc target bound p re
      else Ret re
  end.

Definition get_line_seg_points (fuel : nat) (start end_ bound : Scalar)
    : result (list Scalar) :=
  let re := [] in
  let x := s0 start in
  let y := s1 start in
  let z := s2 start in
  let x2 := s0 end_ in
  let y2 := s1 end_ in
  let z2 := s2 end_ in
  if (x =? x2) && (y =? y2) && (z =? z2) then Ret re
  else if out_of_canvas start bound && out_of_canvas end_ bound then Ret re
  else
    let '(x, x2, y, y2, z, z2) :=
      if out_of_canvas start bound && negb (out_of_canvas end_ bound)
      then let '(x, x2) := SWAP (x, x2) in
           let '(y, y2) := SWAP (y, y2) in
           let '(z, z2) := SWAP (z, z2) in
           (x, x2, y, y2, z, z2)
      else (x, x2, y, y2, z, z2) in
    let re := re ++ [mkScalar x y z] in
    let dx := x2 - x in
    let dy := y2 - y in
    let dz := z2 - z in
    let x_inc := if dx >? 0 then 1 else -1 in
    let y_inc := if dy >? 0 then 1 else -1 in
    let z_inc := if dz >? 0 then 1 else -1 in
    let Adx := Z.abs dx in
    let Ady := Z.abs dy in
    let Adz := Z.abs dz in
    re <- seg_while fuel Adx Ady Adz (mkScalar x_inc y_inc z_inc)
                    (mkScalar x2 y2 z2) bound (mkScalar x y z) re ;;
    Ret (re ++ [mkScalar x2 y2 z2]).

(** [get_ellipse_points]: the polygon of the ellipse comes from OpenCV's
    [ellipse2Poly], a function of the library and not of this module; it is
    a parameter of the embedding.  [ellipse2Poly centre axes angle arc_start
    arc_end delta] returns the vertices [v]. *)
Section EllipsePoints.

Variable ellipse2Poly : Z * Z -> Z * Z -> Z -> Z -> Z -> Z -> list (Z * Z).

(** Modelled from the spec: the operator [+=] on vectors of [re += temp_pts]
    is declared in [utils.hpp], which is not among the sources; the
    specification has the segments concatenated. *)
Definition vector_append (re temp_pts : list Scalar) : list Scalar :=
  re ++ temp_pts.

(** The [for] loop over the vertices [v[1..]]: [p0] is the previous
    vertex, [re] the points collected so far. *)
Fixpoint poly_segments (fuel : nat) (frame : Z) (bound : Scalar)
    (p0 : Z * Z) (v : list (Z * Z)) (re : list Scalar)
    : result (list Scalar) :=
  match v with
  | [] => Ret re
  | p :: v' =>
      temp_pts <- get_line_seg_points fuel
                    (mkScalar (fst p0) (snd p0) frame)
                    (mkScalar (fst p) (snd p) frame) bound ;;
      poly_segments fuel frame bound p v' (vector_append re temp_pts)
  end.

(** The vertices [v] of the polygon that approximates the ellipse. *)
Definition ellipse_vertices (centre param : Scalar) : list (Z * Z) :=
  let width := Z.abs (s0 param) in
  let height := Z.abs (s1 param) in
  let '(width, height) :=
    if width >? height then SWAP (width, height) else (width, height) in
  ellipse2Poly (s0 centre, s1 centre) (width, height) (s2 param) 0 360 3.

Definition get_ellipse_points (fuel : nat) (centre param bound : Scalar)
    : result (list Scalar) :=
  let re := [] in
  let v := ellipse_vertices centre param in
  match v with
  | [] => Ret re
  | p0 :: v' => poly_segments fuel (s2 centre) bound p0 v' re
  end.

End EllipsePoints.

(** ** Local statistics *)

Definition bound_scalar_3d (point radius bound : Scalar) : Scalar * Scalar :=
  let lo := fun a =>
    if get a point - get a radius <? 0 then 0
    else get a point - get a radius in
  let hi := fun a =>
    if get a point + get a radius >=? get a bound then get a bound - 1
    else get a point + get a radius in
  (mkScalar (lo AX) (lo AY) (lo AZ), mkScalar (hi AX) (hi AY) (hi AZ)).

(** The values taken by [v] in [for (auto v = lo; v <= hi; v++)]. *)
Definition for_range (lo hi : Z) : list Z :=
  map (fun k => lo + Z.of_nat k) (seq 0 (Z.to_nat (hi - lo + 1))).

(** The [double] that holds the integer [z] (exactly, below [2^53]). *)
Definition double_of (z : Z) : PrimFloat.float :=
  if z <? 0 then PrimFloat.opp (PrimFloat.of_uint63 (Uint63.of_Z (- z)))
  else PrimFloat.of_uint63 (Uint63.of_Z z).

(** [radius[a] > 0 ? pow(((double) v - point[a]) / radius[a], 2) : 0], in
    binary64 arithmetic.  The difference of the two integer-valued doubles
    is exact: it is the double of the integer difference.  The quotient is
    rounded, and [pow(x, 2)] is the product [x * x], rounded once. *)
Definition ellipsoid_term (a : axis) (point radius : Scalar) (v : Z)
    : PrimFloat.float :=
  if PrimFloat.ltb PrimFloat.zero (double_of (get a radius))
  then
    let x := PrimFloat.div (double_of (v - get a point))
                           (double_of (get a radius)) in
    PrimFloat.mul x x
  else PrimFloat.zero.

(** The three nested loops that collect [point_set]; the test is
    [p1 + p2 + p3 <= 1.0], the two sums rounded. *)
Definition collect_pixels (point radius left_up_most right_down_most : Scalar)
    : list Scalar :=
  flat_map (fun i =>
    flat_map (fun r =>
      flat_map (fun c =>
        let p1 := ellipsoid_term AX point radius c in
        let p2 := ellipsoid_term AY point radius r in
        let p3 := ellipsoid_term AZ point radius i in
        if PrimFloat.leb (PrimFloat.add (PrimFloat.add p1 p2) p3)
                         PrimFloat.one
        then [mkScalar c r i] else [])
      (for_range (s0 left_up_most) (s0 right_down_most)))
    (for_range (s1 left_up_most) (s1 right_down_most)))
  (for_range (s2 left_up_most) (s2 right_down_most)).

(** The pixel [img.at<Vec3b>(pos[1], pos[0])] of frame [pos[2]]. *)
Definition pixel_at (images : Images) (pos : Scalar) : Vec3b :=
  at_ images (s2 pos) (s1 pos) (s0 pos).

(** The loop [avg[channel] += pixel[channel]] over [point_set]. *)
Definition sum_colors (images : Images) (point_set : list Scalar) : ScalarR :=
  fold_left (fun avg pos =>
               let pixel := pixel_at images pos in
               mkScalarR (r0 avg + IZR (ch0 pixel))
                         (r1 avg + IZR (ch1 pixel))
                         (r2 avg + IZR (ch2 pixel)))
            point_set (mkScalarR 0 0 0).

Definition ScalarR_div (a : ScalarR) (alpha : R) : ScalarR :=
  mkScalarR (r0 a / alpha) (r1 a / alpha) (r2 a / alpha).

(** The loop [var[channel] += pow(pixel[channel] - avg[channel], 2)]. *)
Definition sum_squares (images : Images) (avg : ScalarR)
    (point_set : list Scalar) : ScalarR :=
  fold_left (fun var pos =>
               let pixel := pixel_at images pos in
               mkScalarR (r0 var + (IZR (ch0 pixel) - r0 avg) ^ 2)
                         (r1 var + (IZR (ch1 pixel) - r1 avg) ^ 2)
                         (r2 var + (IZR (ch2 pixel) - r2 avg) ^ 2))
            point_set (mkScalarR 0 0 0).

Definition local_point_set (images : Images) (point radius : Scalar)
    : list Scalar :=
  let w := cols images in
  let h := rows images in
  let d := size images in
  let bounds := bound_scalar_3d point radius (mkScalar w h d) in
  let left_up_most := fst bounds in
  let right_down_most := snd bounds in
  collect_pixels point radius left_up_most right_down_most.

(** With a single collected point the code divides 0.0 by [count - 1 = 0];
    the properties of this function below assume at least 2 points. *)
Definition cv_imgs_point_var_loc (images : Images) (point radius : Scalar)
    : R :=
  let point_set := local_point_set images point radius in
  let count := Z.of_nat (length point_set) in
  let avg := sum_colors images point_set in
  let avg := ScalarR_div avg (IZR count) in
  let var := sum_squares images avg point_set in
  let std := (sqrt (r0 var / IZR (count - 1))
              + sqrt (r1 var / IZR (count - 1))
              + sqrt (r2 var / IZR (count - 1)))%R in
  std.

Definition cv_imgs_point_color_loc (images : Images) (point radius : Scalar)
    : ScalarR :=
  let point_set := local_point_set images point radius in
  let count := Z.of_nat (length point_set) in
  let avg := sum_colors images point_set in
  ScalarR_div avg (IZR count).

(** Row and column indices of the 3x3 matrices [A], [gx] and [gy]. *)
Inductive idx : Type := i0 | i1 | i2.

(** The kernels [gx] and [gy] after [gx = gx/32; gy = gy/32]. *)
Definition gx (i j : idx) : R :=
  (match i, j with
   | i0, i0 => 3 | i0, i1 => 10 | i0, i2 => 3
   | i1, i0 => 0 | i1, i1 => 0 | i1, i2 => 0
   | i2, i0 => -3 | i2, i1 => -10 | i2, i2 => -3
   end / 32)%R.

Definition gy (i j : idx) : R :=
  (match i, j with
   | i0, i0 => 3 | i0, i1 => 0 | i0, i2 => -3
   | i1, i0 => 10 | i1, i1 => 0 | i1, i2 => -10
   | i2, i0 => 3 | i2, i1 => 0 | i2, i2 => -3
   end / 32)%R.

Definition cv_imgs_point_scharr (images : Images) (point : Scalar) : R :=
  let w := cols images in
  let h := rows images in
  let x := s0 point in
  let y := s1 point in
  let frame := s2 point in
  if (x <? 1) || (y <? 1) || (x >? w - 2) || (y >? h - 2)
  then 0%R
  else
    let img := fun r c => IZR (ch0 (at_ images frame r c)) in
    let A := fun i j =>
      match i, j with
      | i0, i0 => img (y - 1) (x - 1)
      | i0, i1 => img (y - 1) x
      | i0, i2 => img (y - 1) (x + 1)
      | i1, i0 => img y (x - 1)
      | i1, i1 => img y x
      | i1, i2 => img y (x + 1)
      | i2, i0 => img (y + 1) (x - 1)
      | i2, i1 => img (y + 1) x
      | i2, i2 => img (y + 1) (x + 1)
      end in
    let Gx := (gx i2 i2 * A i0 i0 + gx i2 i1 * A i0 i1 + gx i2 i0 * A i0 i2
               + gx i1 i2 * A i1 i0 + gx i1 i1 * A i1 i1 + gx i1 i0 * A i1 i2
               + gx i0 i2 * A i2 i0 + gx i0 i1 * A i2 i1 + gx i0 i0 * A i2 i2)%R in
    let Gy := (gy i2 i2 * A i0 i0 + gy i2 i1 * A i0 i1 + gy i2 i0 * A i0 i2
               + gy i1 i2 * A i1 i0 + gy i1 i1 * A i1 i1 + gy i1 i0 * A i1 i2
               + gy i0 i2 * A i2 i0 + gy i0 i1 * A i2 i1 + gy i0 i0 * A i2 i2)%R in
    let G := sqrt (Gx * Gx + Gy * Gy) in
    G.

(** ** Threshold samplers with thinning *)

(** The variables of the thinning loop.  [tmp_last] and [tmp_max] start as
    the default [Scalar]; [tmp_g] is not initialised by the code and is
    never read before [cont] is set, its initial value here is 0. *)
Record thin : Type := mkThin {
  re : list Scalar;
  tmp_last : Scalar;
  tmp_max : Scalar;
  tmp_g : R;
  cont : bool
}.

(** The body of the loop over [line_points]. *)
Definition thin_step (images : Images) (grad_threshold : R)
    (st : thin) (pt : Scalar) : thin :=
  let grad := cv_imgs_point_scharr images pt in
  if Rge_dec grad grad_threshold then
    if negb (cont st) then
      mkThin (re st) pt pt grad true
    else if point_cont (tmp_last st) pt then
      if Rge_dec grad (tmp_g st)
      then mkThin (re st) pt pt grad (cont st)
      else mkThin (re st) pt (tmp_max st) (tmp_g st) (cont st)
    else
      mkThin (re st ++ [tmp_max st]) (tmp_last st) (tmp_max st) (tmp_g st)
             false
  else st.

(** What both samplers do with the rasterised [line_points]: push the first
    point, run the loop, push the last point. *)
Definition thin_points (images : Images) (line_points : list Scalar)
    (grad_threshold : R) : result (list Scalar) :=
  match line_points with
  | [] => Undefined
  | first :: _ =>
      let st := fold_left (thin_step images grad_threshold) line_points
                  (mkThin [first] (mkScalar 0 0 0) (mkScalar 0 0 0) 0%R false) in
      Ret (re st ++ [last line_points first])
  end.

Definition cv_line_pts_scharr_geq_T (fuel : nat) (images : Images)
    (point direction : Scalar) (grad_threshold : R) : result (list Scalar) :=
  let bound := mkScalar (cols images) (rows images) (size images) in
  line_points <- get_line_points fuel point direction bound ;;
  thin_points images line_points grad_threshold.

Definition cv_line_seg_pts_scharr_geq_T (fuel : nat) (images : Images)
    (start end_ : Scalar) (grad_threshold : R) : result (list Scalar) :=
  let bound := mkScalar (cols images) (rows images) (size images) in
  line_points <- get_line_seg_points fuel start end_ bound ;;
  thin_points images line_points grad_threshold.

(** ** Conversions from [double] to [int] *)

(** [(int) r]: truncation toward zero. *)
Definition double_to_int (r : R) : Z :=
  if Rle_dec 0 r then Int_part r else - Int_part (- r).

(** [round(r)]: to the nearest integer, halves away from zero. *)
Definition round (r : R) : Z :=
  if Rle_dec 0 r then Int_part (r + / 2) else - Int_part (- r + / 2).

(** ** Lines in a direction with [double] components *)

(** [x == 0] on a double. *)
Definition double_is_zero (x : R) : bool :=
  if Req_EM_T x 0 then true else false.

(** [x > 0 ? 1 : -1] on a double. *)
Definition double_sign (x : R) : Z := if Rgt_dec x 0 then 1 else -1.

(** The direction as [bresenham] reads it: [int dx = direction[0]],
    [int dy = direction[1]], [int dz = direction[2]]. *)
Definition truncated (direction : ScalarR) : Scalar :=
  mkScalar (double_to_int (r0 direction)) (double_to_int (r1 direction))
           (double_to_int (r2 direction)).

(** [get_line_points(point, direction, bound)] for a direction whose
    components are any doubles.  The zero test and the increments read the
    doubles themselves; [bresenham] converts them to [int] on entry, at
    every level of its recursion, which passes [direction] on unchanged:
    the conversion is written once, here. *)
Definition get_line_points_double (fuel : nat) (point : Scalar)
    (direction : ScalarR) (bound : Scalar) : result (list Scalar) :=
  let re := [] in
  if double_is_zero (r0 direction) && double_is_zero (r1 direction)
     && double_is_zero (r2 direction)
  then Ret re
  else
    let c_inc := double_sign (r0 direction) in
    let r_inc := double_sign (r1 direction) in
    let d_inc := double_sign (r2 direction) in
    let inc := mkScalar c_inc r_inc d_inc in
    re <- bresenham fuel point (truncated direction) inc bound re ;;
    let re := rev re in
    let re := re ++ [point] in
    let c_inc := -1 * c_inc in
    let r_inc := -1 * r_inc in
    let d_inc := -1 * d_inc in
    let inc := mkScalar c_inc r_inc d_inc in
    re <- bresenham fuel point (truncated direction) inc bound re ;;
    Ret (rev re).

(** The increments [c_inc], [r_inc], [d_inc] of [get_line_points_double]. *)
Definition double_signs (direction : ScalarR) : Scalar :=
  mkScalar (double_sign (r0 direction)) (double_sign (r1 direction))
           (double_sign (r2 direction)).

(** The integer-valued direction [direction], as doubles. *)
Definition integral (direction : Scalar) : ScalarR :=
  mkScalarR (IZR (s0 direction)) (IZR (s1 direction)) (IZR (s2 direction)).

(** The zero test of [get_line_points_double] does not hold. *)
Definition nonzero_double (direction : ScalarR) : Prop :=
  double_is_zero (r0 direction) && double_is_zero (r1 direction)
  && double_is_zero (r2 direction) = false.

(** Every component of [direction] is strictly between -1 and 1. *)
Definition small (direction : ScalarR) : Prop :=
  (-1 < r0 direction < 1)%R /\ (-1 < r1 direction < 1)%R /\
  (-1 < r2 direction < 1)%R.

(** ** Ellipse fitter *)

(** The coefficients [a_vec] of the fitted conic. *)
Record conic : Type := mkConic {
  axx : R; axy : R; ayy : R; ax : R; ay : R; a1 : R
}.

Section FitEllipse.

(** The design matrix, the scatter matrix, its inverse and the
    eigenvector of largest absolute real eigenvalue are computed by
    Armadillo ([inv], [eig_gen], [max]): the function from the points to
    [a_vec] is a parameter of the embedding.  Only the assertion on the
    number of points is reasoned about below: after it, [inv] can fail on a
    singular scatter matrix and the axis lengths can be NaN, neither of
    which this definition describes. *)
Variable eig_conic : list Scalar -> conic.

Definition fit_ellipse (points : list Scalar) : result (Scalar * Scalar) :=
  if negb (Z.of_nat (length points) >=? 5) then AssertFailed
  else
    match points with
    | [] => Undefined
    | p0 :: _ =>
        let frame := s2 p0 in
        let a_vec := eig_conic points in
        let b := (axy a_vec / 2)%R in
        let c := ayy a_vec in
        let d := (ax a_vec / 2)%R in
        let f := (ay a_vec / 2)%R in
        let g := a1 a_vec in
        let a := axx a_vec in
        let num := (b * b - a * c)%R in
        let x0 := double_to_int ((c * d - b * f) / num) in
        let y0 := double_to_int ((a * f - b * d) / num) in
        let centre := mkScalar x0 y0 frame in
        let up := (2 * (a * f * f + c * d * d + g * b * b
                        - 2 * b * d * f - a * c * g))%R in
        let down1 := ((b * b - a * c) *
          ((c - a) * sqrt (1 + 4 * b * b / ((a - c) * (a - c))) - (c + a)))%R in
        let down2 := ((b * b - a * c) *
          ((a - c) * sqrt (1 + 4 * b * b / ((a - c) * (a - c))) - (c + a)))%R in
        let res1 := sqrt (up / down1) in
        let res2 := sqrt (up / down2) in
        let angle :=
          if Req_dec_T b 0 then
            if Rgt_dec a c then 0%R else (PI / 2)%R
          else
            if Rgt_dec a c then (atan (2 * b / (a - c)) / 2)%R
            else (PI / 2 + atan (2 * b / (a - c)) / 2)%R in
        let angle := (90 + angle * 180 / PI)%R in
        let param :=
          if Rge_dec res1 res2
          then mkScalar (round res1) (round res2) (round angle)
          else mkScalar (round res2) (round res1) (round angle) in
        Ret (centre, param)
    end.

End FitEllipse.

(** ** Histogram comparison *)

(** A 3 x 32 matrix of counts [arma::Mat<int>], by channel and bin. *)
Definition freq_mat : Type := Z -> Z -> Z.

(** [freq(channel, f) = freq(channel, f) + 1]; a bin outside [0, 32) does
    not exist. *)
Definition freq_incr (freq : freq_mat) (channel f : Z) : result freq_mat :=
  if (0 <=? f) && (f <? 32)
  then Ret (fun ch b =>
              if (ch =? channel) && (b =? f) then freq ch b + 1 else freq ch b)
  else Undefined.

(** The loop over the three channels of one colour. *)
Definition count_color (freq : freq_mat) (lab : ScalarR) : result freq_mat :=
  freq <- freq_incr freq 0 (double_to_int (r0 lab / 8)) ;;
  freq <- freq_incr freq 1 (double_to_int (r1 lab / 8)) ;;
  freq_incr freq 2 (double_to_int (r2 lab / 8)).

Fixpoint count_colors (colors : list ScalarR) (freq : freq_mat)
    : result freq_mat :=
  match colors with
  | [] => Ret freq
  | lab :: colors' =>
      freq <- count_color freq lab ;;
      count_colors colors' freq
  end.

(** [arma::sum(freq.row(ch))] *)
Definition row_sum (freq : freq_mat) (ch : Z) : Z :=
  fold_left (fun acc f => acc + freq ch f) (for_range 0 31) 0.

(** The smoothed histogram entry [hist(ch, f)]. *)
Definition hist (freq : freq_mat) (ch f : Z) : R :=
  ((IZR (freq ch f) + 0.0001) / (IZR (row_sum freq ch) + 0.0032))%R.

Definition log2 (x : R) : R := (ln x / ln 2)%R.

(** The accumulation [D += h(ch, f) * log2(h(ch, f) / h'(ch, f))] over the
    32 bins. *)
Definition kl_sum (h h' : Z -> Z -> R) (ch : Z) : R :=
  fold_left (fun D f => (D + h ch f * log2 (h ch f / h' ch f))%R)
            (for_range 0 31) 0%R.

Definition compare_hist (images : Images) (points_1 points_2 : list Scalar)
    : result R :=
  let colors_1 :=
    map (fun p => cv_imgs_point_color_loc images p (mkScalar 0 0 0)) points_1 in
  let colors_2 :=
    map (fun p => cv_imgs_point_color_loc images p (mkScalar 0 0 0)) points_2 in
  freq_1 <- count_colors colors_1 (fun _ _ => 0) ;;
  freq_2 <- count_colors colors_2 (fun _ _ => 0) ;;
  let hist_1 := hist freq_1 in
  let hist_2 := hist freq_2 in
  let kls := fun ch =>
    let D_1_2 := kl_sum hist_1 hist_2 ch in
    let D_2_1 := kl_sum hist_2 hist_1 ch in
    ((D_1_2 + D_2_1) / 2)%R in
  let kl := sqrt ((kls 0 * kls 0 + kls 1 * kls 1 + kls 2 * kls 2) / 3) in
  Ret kl.

(** ** Order along a rasterised line *)

(** The driving axis chosen by the three [if] conditions. *)
Definition driving (Adx Ady Adz : Z) : axis :=
  if (Adx >=? Ady) && (Adx >=? Adz) then AX
  else if (Ady >? Adx) && (Ady >=? Adz) then AY
  else AZ.

Definition driving_of (direction : Scalar) : axis :=
  driving (Z.abs (s0 direction)) (Z.abs (s1 direction)) (Z.abs (s2 direction)).

(** The increments [c_inc], [r_inc], [d_inc] of [get_line_points]. *)
Definition signs (direction : Scalar) : Scalar :=
  mkScalar (if s0 direction >? 0 then 1 else -1)
           (if s1 direction >? 0 then 1 else -1)
           (if s2 direction >? 0 then 1 else -1).

Definition opposite (inc : Scalar) : Scalar :=
  mkScalar (-1 * s0 inc) (-1 * s1 inc) (-1 * s2 inc).

(** [q] is one step after [p]: one increment further on the driving axis
    [d], and on every axis either unchanged or one increment further. *)
Definition follows (inc : Scalar) (d : axis) (p q : Scalar) : Prop :=
  get d q = get d p + get d inc /\
  forall a, get a q = get a p \/ get a q = get a p + get a inc.

(** [p], then the elements of [l], each related to the next. *)
Fixpoint chain (R : Scalar -> Scalar -> Prop) (p : Scalar) (l : list Scalar)
    : Prop :=
  match l with
  | [] => True
  | q :: l' => R p q /\ chain R q l'
  end.

(** Every two consecutive elements of [l] are related. *)
Definition ordered (R : Scalar -> Scalar -> Prop) (l : list Scalar) : Prop :=
  match l with
  | [] => True
  | p :: l' => chain R p l'
  end.

Definition in_canvas (bound q : Scalar) : Prop := out_of_canvas q bound = false.

(** ** Notions used to state the properties of the rasterisation *)

Inductive roles : axis -> axis -> axis -> Prop :=
| roles_x : roles AX AY AZ
| roles_y : roles AY AX AZ
| roles_z : roles AZ AY AX.

Definition minor1 (d : axis) : axis :=
  match d with AX => AY | AY => AX | AZ => AY end.

Definition minor2 (d : axis) : axis :=
  match d with AX => AZ | AY => AZ | AZ => AX end.

Definition delta_of (Adx Ady Adz : Z) (a : axis) : Z :=
  match a with AX => Adx | AY => Ady | AZ => Adz end.

Definition doubled (Adx Ady Adz : Z) (a : axis) : Z :=
  match a with AX => Adx * 2 | AY => Ady * 2 | AZ => Adz * 2 end.

(** The loop run by [line_blocks], with its initial error terms. *)
Definition driven_loop (Adx Ady Adz : Z) (inc : Scalar)
    (keep : Scalar -> bool) (p : Scalar) (points : list Scalar)
    : walk * list Scalar :=
  let d := driving Adx Ady Adz in
  let A := delta_of Adx Ady Adz in
  line_loop d (minor1 d) (minor2 d) (doubled Adx Ady Adz) inc keep
            (Z.to_nat (A d))
            (mkWalk p (A (minor1 d) * 2 - A d) (A (minor2 d) * 2 - A d))
            points.

Definition nonzero (direction : Scalar) : Prop :=
  (s0 direction =? 0) && (s1 direction =? 0) && (s2 direction =? 0) = false.

(** The distance, along the driving axis and in the direction of travel,
    from [p] to the first position outside the canvas. *)
Definition ray_measure (inc bound : Scalar) (d : axis) (p : Scalar) : nat :=
  Z.to_nat (if get d inc >? 0 then get d bound - get d p else get d p + 1).

(** The walk after [k] iterations of the stepping loop started at [start]:
    [t1] and [t2] count the steps taken on the two minor axes; the error
    terms are determined by [k], [t1], [t2] and stay within one doubled
    driving delta. *)
Definition exact_at (d m1 m2 : axis) (Adx Ady Adz : Z) (inc start : Scalar)
    (k : Z) (w : walk) : Prop :=
  exists t1 t2,
    get d (cur w) = get d start + k * get d inc /\
    get m1 (cur w) = get m1 start + t1 * get m1 inc /\
    get m2 (cur w) = get m2 start + t2 * get m2 inc /\
    err_1 w = 2 * delta_of Adx Ady Adz m1 * (k + 1) - delta_of Adx Ady Adz d
              - 2 * delta_of Adx Ady Adz d * t1 /\
    2 * delta_of Adx Ady Adz m1 - 2 * delta_of Adx Ady Adz d < err_1 w
      <= 2 * delta_of Adx Ady Adz m1 /\
    err_2 w = 2 * delta_of Adx Ady Adz m2 * (k + 1) - delta_of Adx Ady Adz d
              - 2 * delta_of Adx Ady Adz d * t2 /\
    2 * delta_of Adx Ady Adz m2 - 2 * delta_of Adx Ady Adz d < err_2 w
      <= 2 * delta_of Adx Ady Adz m2.

(** The point the rasterisation grows from and the point it grows to:
    [start] and [end], exchanged when only [end] is in the canvas. *)
Definition seg_ends (start end_ bound : Scalar) : Scalar * Scalar :=
  if out_of_canvas start bound && negb (out_of_canvas end_ bound)
  then (end_, start)
  else (start, end_).

Definition minus (q p : Scalar) : Scalar :=
  mkScalar (s0 q - s0 p) (s1 q - s1 p) (s2 q - s2 p).

(** The test of the stepping loops of [get_line_seg_points]. *)
Definition seg_keep (target bound : Scalar) (q : Scalar) : bool :=
  negb (out_of_canvas q bound) && negb (Scalar_eqb q target).

(** The point of frame [frame] at the polygon vertex [u]. *)
Definition vertex_point (frame : Z) (u : Z * Z) : Scalar :=
  mkScalar (fst u) (snd u) frame.

(** ** The local variance, as the specification states it *)

Definition sum (xs : list R) : R := fold_right Rplus 0%R xs.










Definition channel_values (images : Images) (channel : Vec3b -> Z)
    (points : list Scalar) : list R :=
  map (fun q => IZR (channel (pixel_at images q))) points.



(** The channels of a pixel are 8-bit values. *)
Definition byte_pixel (pixel : Vec3b) : Prop :=
  0 <= ch0 pixel <= 255 /\ 0 <= ch1 pixel <= 255 /\ 0 <= ch2 pixel <= 255.

(** ** An example frame sequence *)

(** A frame sequence with one 5 x 3 frame, dark except for column 3. *)
Definition edge_images : Images :=
  mkImages 5 3 1 (fun frame row col =>
                    if col =? 3 then mkVec3b 64 0 0 else mkVec3b 0 0 0).


(** ** Batch statistics and variance samplers *)

(** The loop [re.push_back(f(images, *it))] over [points], shared by the
    three batch functions. *)
Definition push_each {A : Type} (f : Scalar -> A) (points : list Scalar)
    : list A :=
  fold_left (fun re it => re ++ [f it]) points [].

Definition cv_imgs_points_color_loc (images : Images) (points : list Scalar)
    (radius : Scalar) : list ScalarR :=
  push_each (fun it => cv_imgs_point_color_loc images it radius) points.

Definition cv_imgs_points_var_loc (images : Images) (points : list Scalar)
    (radius : Scalar) : list R :=
  push_each (fun it => cv_imgs_point_var_loc images it radius) points.

Definition cv_imgs_points_scharr (images : Images) (points : list Scalar)
    : list R :=
  push_each (fun it => cv_imgs_point_scharr images it) points.

(** The loop of the variance samplers over [line_points]: a point is pushed
    when its local variance reaches the threshold.  (The line variant also
    prints each point and its variance; the output is not modelled.) *)
Definition var_geq_T_loop (images : Images) (line_points : list Scalar)
    (var_threshold : R) (loc_radius : Scalar) : list Scalar :=
  fold_left (fun re pt =>
               let var := cv_imgs_point_var_loc images pt loc_radius in
               if Rge_dec var var_threshold then re ++ [pt] else re)
            line_points [].

Definition cv_line_pts_var_geq_T (fuel : nat) (images : Images)
    (point direction : Scalar) (var_threshold : R) (loc_radius : Scalar)
    : result (list Scalar) :=
  let bound := mkScalar (cols images) (rows images) (size images) in
  line_points <- get_line_points fuel point direction bound ;;
  Ret (var_geq_T_loop images line_points var_threshold loc_radius).

Definition cv_line_seg_pts_var_geq_T (fuel : nat) (images : Images)
    (start end_ : Scalar) (var_threshold : R) (loc_radius : Scalar)
    : result (list Scalar) :=
  let bound := mkScalar (cols images) (rows images) (size images) in
  line_points <- get_line_seg_points fuel start end_ bound ;;
  Ret (var_geq_T_loop images line_points var_threshold loc_radius).

(** ** Notions used to state further properties *)

(** The largest absolute coordinate difference of two points. *)
Definition chebyshev (p q : Scalar) : Z :=
  Z.max (Z.max (Z.abs (s0 p - s0 q)) (Z.abs (s1 p - s1 q)))
        (Z.abs (s2 p - s2 q)).

(** The test [var >= var_threshold] of the variance samplers. *)
Definition var_geq (images : Images) (var_threshold : R) (loc_radius : Scalar)
    (pt : Scalar) : bool :=
  if Rge_dec (cv_imgs_point_var_loc images pt loc_radius) var_threshold
  then true else false.

(** The walk after [i] iterations of the stepping loop without its test. *)
Fixpoint walk_at (d m1 m2 : axis) (d2 : axis -> Z) (inc : Scalar) (i : nat)
    (w : walk) : walk :=
  match i with
  | O => w
  | S i' => walk_at d m1 m2 d2 inc i' (line_step d m1 m2 d2 inc w)
  end.

(** The first walk of the stepping loop that [get_line_seg_points] runs
    from [anchor] towards [target]. *)
Definition seg_walk0 (anchor target : Scalar) : walk :=
  let delta := minus target anchor in
  let A := delta_of (Z.abs (s0 delta)) (Z.abs (s1 delta)) (Z.abs (s2 delta)) in
  let d := driving (Z.abs (s0 delta)) (Z.abs (s1 delta)) (Z.abs (s2 delta)) in
  mkWalk anchor (A (minor1 d) * 2 - A d) (A (minor2 d) * 2 - A d).

(** The point reached after [i] steps from [anchor] towards [target]. *)
Definition seg_point (anchor target : Scalar) (i : nat) : Scalar :=
  let delta := minus target anchor in
  let Adx := Z.abs (s0 delta) in
  let Ady := Z.abs (s1 delta) in
  let Adz := Z.abs (s2 delta) in
  let d := driving Adx Ady Adz in
  cur (walk_at d (minor1 d) (minor2 d) (doubled Adx Ady Adz) (signs delta) i
               (seg_walk0 anchor target)).

(** [x] lies between [u] and [v]. *)
Definition between (u v x : Z) : Prop := Z.min u v <= x <= Z.max u v.

(** [q] lies in the box spanned by [p1] and [p2]. *)
Definition in_box (p1 p2 q : Scalar) : Prop :=
  forall a, between (get a p1) (get a p2) (get a q).

(** The direction vector [-direction]. *)
Definition negated (direction : Scalar) : Scalar :=
  mkScalar (- s0 direction) (- s1 direction) (- s2 direction).

(** Two increment vectors agree wherever the delta [A] is not 0. *)
Definition agree (A : axis -> Z) (inc inc' : Scalar) : Prop :=
  forall a, get a inc = get a inc' \/ A a = 0.

(** On an axis of delta 0 the error term of a walk is not positive. *)
Definition quiet (d2 : axis -> Z) (m1 m2 : axis) (w : walk) : Prop :=
  (d2 m1 = 0 -> err_1 w <= 0) /\ (d2 m2 = 0 -> err_2 w <= 0).

(** * Properties *)

(** ** Lists and chains *)

Lemma last_cons_default (q p : Scalar) l : last (q :: l) p = last l q.
Proof.
  revert q p; induction l as [|x l IH]; intros q p; [reflexivity|].
  change (last (q :: x :: l) p) with (last (x :: l) p).
  rewrite (IH x p), (IH x q). reflexivity.
Qed.

Lemma chain_app R p l1 l2 :
  chain R p (l1 ++ l2) <-> chain R p l1 /\ chain R (last l1 p) l2.
Proof.
  revert p; induction l1 as [|q l1 IH]; intros p.
  - simpl. tauto.
  - rewrite last_cons_default. simpl. rewrite IH. tauto.
Qed.

Lemma ordered_snoc_chain R l p l2 :
  ordered R (l ++ [p]) -> chain R p l2 -> ordered R (l ++ p :: l2).
Proof.
  destruct l as [|q l]; simpl; [tauto|].
  intros H1 H2.
  change (p :: l2) with ([p] ++ l2). rewrite app_assoc.
  apply chain_app. split; [assumption|].
  rewrite last_last. assumption.
Qed.

Lemma chain_rev_ordered R p l :
  chain R p l -> ordered (fun a b => R b a) (rev l ++ [p]).
Proof.
  revert p; induction l as [|q l IH]; intros p; simpl.
  - trivial.
  - intros [Hpq Hc]. specialize (IH q Hc).
    rewrite <- app_assoc. simpl.
    apply ordered_snoc_chain; [assumption|]. simpl. tauto.
Qed.

Lemma chain_impl (R R' : Scalar -> Scalar -> Prop) p l :
  (forall a b, R a b -> R' a b) -> chain R p l -> chain R' p l.
Proof.
  intros HR; revert p; induction l as [|q l IH]; intros p; simpl; [trivial|].
  intros [H1 H2]; split; auto.
Qed.

Lemma ordered_impl (R R' : Scalar -> Scalar -> Prop) l :
  (forall a b, R a b -> R' a b) -> ordered R l -> ordered R' l.
Proof.
  intros HR. destruct l; simpl; [trivial|]. apply chain_impl; assumption.
Qed.

(** ** The stepping loop *)

Lemma follows_opposite inc d p q :
  follows (opposite inc) d p q -> follows inc d q p.
Proof.
  unfold follows, opposite. intros [Hd Ha]. split.
  - destruct d; cbn [get s0 s1 s2] in *; lia.
  - intros a. specialize (Ha a). destruct a; cbn [get s0 s1 s2] in *; lia.
Qed.

Lemma chain_follows_drive inc d p l :
  chain (follows inc d) p l ->
  get d (last l p) = get d p + Z.of_nat (length l) * get d inc.
Proof.
  revert p; induction l as [|q l IH]; intros p.
  - simpl. lia.
  - intros [[Hd _] Hc]. rewrite last_cons_default, (IH q Hc), Hd.
    simpl length. lia.
Qed.

Section LineLoop.

Variables (d m1 m2 : axis) (d2 : axis -> Z) (inc : Scalar).
Variable keep : Scalar -> bool.
Hypothesis Hroles : roles d m1 m2.

Lemma line_step_follows w :
  follows inc d (cur w) (cur (line_step d m1 m2 d2 inc w)).
Proof.
  unfold line_step, follows.
  destruct Hroles; destruct (err_1 w >? 0), (err_2 w >? 0); simpl;
    (split; [lia | intros a; destruct a; simpl; lia]).
Qed.

Lemma line_loop_acc n : forall w pts,
  line_loop d m1 m2 d2 inc keep n w pts =
  (fst (line_loop d m1 m2 d2 inc keep n w []),
   pts ++ snd (line_loop d m1 m2 d2 inc keep n w [])).
Proof.
  induction n as [|n IH]; intros w pts; simpl.
  - rewrite app_nil_r. reflexivity.
  - destruct (keep (cur (line_step d m1 m2 d2 inc w))); simpl.
    + rewrite (IH _ (pts ++ _)), (IH _ [_]). simpl.
      rewrite <- app_assoc. reflexivity.
    + rewrite app_nil_r. reflexivity.
Qed.

Lemma line_loop_spec n : forall w pts w' pts',
  line_loop d m1 m2 d2 inc keep n w pts = (w', pts') ->
  exists new,
    pts' = pts ++ new /\
    Forall (fun q => keep q = true) new /\
    chain (follows inc d) (cur w) new /\
    (keep (cur w') = false \/
     (length new = n /\ cur w' = last new (cur w))).
Proof.
  induction n as [|n IH]; intros w pts w' pts'; simpl.
  - intros H; inversion H; subst. exists []. rewrite app_nil_r.
    simpl. auto 6.
  - destruct (keep (cur (line_step d m1 m2 d2 inc w))) eqn:Hk.
    + intros H. destruct (IH _ _ _ _ H) as (new & -> & Hall & Hch & Hend).
      exists (cur (line_step d m1 m2 d2 inc w) :: new).
      rewrite <- app_assoc.
      split; [reflexivity|].
      split; [constructor; assumption|].
      split; [split; [apply line_step_follows | assumption]|].
      destruct Hend as [Hend | [Hlen Hlast]]; [left; assumption|].
      right. split; [simpl; congruence|].
      rewrite Hlast. symmetry. apply last_cons_default.
    + intros H; inversion H; subst. exists []. rewrite app_nil_r.
      simpl. auto.
Qed.

End LineLoop.

(** ** The three blocks: exactly one of them runs *)

Lemma roles_driving d : roles d (minor1 d) (minor2 d).
Proof. destruct d; constructor. Qed.

Lemma line_blocks_driving Adx Ady Adz inc keep p points :
  line_blocks Adx Ady Adz inc keep p points =
  (cur (fst (driven_loop Adx Ady Adz inc keep p points)),
   snd (driven_loop Adx Ady Adz inc keep p points)).
Proof.
  unfold line_blocks, driven_loop, driving.
  rewrite !Z.geb_leb, !Z.gtb_ltb.
  destruct (Z.leb_spec Ady Adx), (Z.leb_spec Adz Adx), (Z.ltb_spec Adx Ady),
    (Z.leb_spec Adz Ady), (Z.ltb_spec Adx Adz), (Z.ltb_spec Ady Adz);
    simpl; try lia;
    match goal with
    | |- context [line_loop ?a ?b ?c ?f ?i ?k ?n ?w ?l] =>
        change f with (doubled Adx Ady Adz);
        destruct (line_loop a b c (doubled Adx Ady Adz) i k n w l); reflexivity
    end.
Qed.

Lemma driving_max Adx Ady Adz :
  let A := delta_of Adx Ady Adz in
  let d := driving Adx Ady Adz in
  A (minor1 d) <= A d /\ A (minor2 d) <= A d /\
  Adx <= A d /\ Ady <= A d /\ Adz <= A d.
Proof.
  unfold driving. rewrite !Z.geb_leb, !Z.gtb_ltb.
  destruct (Z.leb_spec Ady Adx), (Z.leb_spec Adz Adx), (Z.ltb_spec Adx Ady),
    (Z.leb_spec Adz Ady); simpl; lia.
Qed.

Lemma line_blocks_acc Adx Ady Adz inc keep p points :
  line_blocks Adx Ady Adz inc keep p points =
  (fst (line_blocks Adx Ady Adz inc keep p []),
   points ++ snd (line_blocks Adx Ady Adz inc keep p [])).
Proof.
  rewrite !line_blocks_driving. unfold driven_loop.
  rewrite line_loop_acc. reflexivity.
Qed.

Lemma line_blocks_spec Adx Ady Adz inc keep p points p' points' :
  line_blocks Adx Ady Adz inc keep p points = (p', points') ->
  exists new,
    points' = points ++ new /\
    Forall (fun q => keep q = true) new /\
    chain (follows inc (driving Adx Ady Adz)) p new /\
    (keep p' = false \/
     (length new = Z.to_nat (delta_of Adx Ady Adz (driving Adx Ady Adz)) /\
      p' = last new p)).
Proof.
  rewrite line_blocks_driving. unfold driven_loop.
  destruct (line_loop _ _ _ _ _ _ _ _ _) as [w pts] eqn:E.
  simpl. intros H; inversion H; subst.
  eapply line_loop_spec in E; [exact E | apply roles_driving].
Qed.

(** ** The ray extension [bresenham] *)

Lemma bresenham_acc fuel : forall current direction inc bound points,
  bresenham fuel current direction inc bound points =
  (new <- bresenham fuel current direction inc bound [] ;;
   Ret (points ++ new)).
Proof.
  induction fuel as [|fuel IH]; intros; simpl; [reflexivity|].
  rewrite (line_blocks_acc _ _ _ _ _ _ points).
  destruct (line_blocks _ _ _ _ _ _ []) as [q new] eqn:E. simpl.
  destruct (negb (out_of_canvas q bound)).
  - rewrite (IH _ _ _ _ (points ++ new)), (IH _ _ _ _ new).
    destruct (bresenham fuel q direction inc bound []); simpl;
      try reflexivity.
    rewrite app_assoc. reflexivity.
  - reflexivity.
Qed.

Lemma bresenham_spec fuel : forall current direction inc bound points l,
  bresenham fuel current direction inc bound points = Ret l ->
  exists new,
    l = points ++ new /\
    Forall (in_canvas bound) new /\
    chain (follows inc (driving_of direction)) current new.
Proof.
  induction fuel as [|fuel IH]; intros current direction inc bound points l;
    simpl; [discriminate|].
  destruct (line_blocks _ _ _ _ _ _ _) as [q pts] eqn:E.
  apply line_blocks_spec in E.
  destruct E as (new & -> & Hall & Hch & Hend).
  assert (Hin : Forall (in_canvas bound) new).
  { eapply Forall_impl; [|exact Hall]. intros a Ha. unfold in_canvas.
    simpl in Ha. destruct (out_of_canvas a bound); [discriminate|reflexivity]. }
  destruct (out_of_canvas q bound) eqn:Hq; simpl.
  - intros H; inversion H; subst. exists new. auto.
  - destruct Hend as [Hend | [_ Hlast]]; [discriminate|].
    intros H. apply IH in H. destruct H as (new2 & -> & Hall2 & Hch2).
    exists (new ++ new2). rewrite app_assoc.
    split; [reflexivity|]. split; [apply Forall_app; auto|].
    apply chain_app. split; [assumption|]. rewrite <- Hlast. assumption.
Qed.

Lemma in_canvas_get bound q a :
  out_of_canvas q bound = false -> 0 <= get a q <= get a bound - 1.
Proof.
  unfold out_of_canvas. rewrite !Z.geb_leb.
  destruct (Z.leb_spec 0 (s0 q)), (Z.leb_spec (s0 q) (s0 bound - 1)),
    (Z.leb_spec 0 (s1 q)), (Z.leb_spec (s1 q) (s1 bound - 1)),
    (Z.leb_spec 0 (s2 q)), (Z.leb_spec (s2 q) (s2 bound - 1));
    simpl; try discriminate; intros _; destruct a; simpl; lia.
Qed.

Lemma nonzero_driving direction :
  nonzero direction ->
  1 <= delta_of (Z.abs (s0 direction)) (Z.abs (s1 direction))
                (Z.abs (s2 direction)) (driving_of direction).
Proof.
  unfold nonzero, driving_of. intros H.
  pose proof (driving_max (Z.abs (s0 direction)) (Z.abs (s1 direction))
                          (Z.abs (s2 direction))) as Hmax.
  simpl in Hmax.
  destruct (Z.eqb_spec (s0 direction) 0), (Z.eqb_spec (s1 direction) 0),
    (Z.eqb_spec (s2 direction) 0); simpl in H; try discriminate; lia.
Qed.

Lemma bresenham_terminates direction inc bound :
  nonzero direction ->
  get (driving_of direction) inc = 1 \/ get (driving_of direction) inc = -1 ->
  forall fuel current points,
    (ray_measure inc bound (driving_of direction) current < fuel)%nat ->
    exists l, bresenham fuel current direction inc bound points = Ret l.
Proof.
  intros Hnz Hinc. pose proof (nonzero_driving _ Hnz) as HA.
  induction fuel as [|fuel IH]; intros current points Hm; [lia|].
  simpl.
  destruct (line_blocks _ _ _ _ _ _ _) as [q pts] eqn:E.
  apply line_blocks_spec in E.
  destruct E as (new & -> & _ & Hch & Hend).
  destruct (out_of_canvas q bound) eqn:Hq; simpl; [eexists; reflexivity|].
  destruct Hend as [Hend | [Hlen Hlast]];
    [discriminate|].
  apply IH.
  apply chain_follows_drive in Hch. rewrite <- Hlast, Hlen in Hch.
  fold (driving_of direction) in Hch.
  pose proof (in_canvas_get bound q (driving_of direction) Hq) as Hrange.
  unfold ray_measure in *.
  destruct Hinc as [Hi | Hi]; rewrite Hi in *; simpl in *; lia.
Qed.

Lemma signs_unit direction a :
  get a (signs direction) = 1 \/ get a (signs direction) = -1.
Proof.
  destruct a; simpl;
    [destruct (s0 direction >? 0) | destruct (s1 direction >? 0)
     | destruct (s2 direction >? 0)]; auto.
Qed.

Lemma opposite_unit inc a :
  get a inc = 1 \/ get a inc = -1 ->
  get a (opposite inc) = 1 \/ get a (opposite inc) = -1.
Proof. destruct a; cbn [get opposite s0 s1 s2]; lia. Qed.

(** ** [get_line_points] *)

Lemma get_line_points_unfold fuel point direction bound :
  nonzero direction ->
  get_line_points fuel point direction bound =
  (pos <- bresenham fuel point direction (signs direction) bound [] ;;
   neg <- bresenham fuel point direction (opposite (signs direction)) bound [] ;;
   Ret (rev neg ++ point :: pos)).
Proof.
  unfold nonzero, get_line_points. intros ->. cbv zeta.
  change (mkScalar (-1 * (if s0 direction >? 0 then 1 else -1))
                   (-1 * (if s1 direction >? 0 then 1 else -1))
                   (-1 * (if s2 direction >? 0 then 1 else -1)))
    with (opposite (signs direction)).
  change (mkScalar (if s0 direction >? 0 then 1 else -1)
                   (if s1 direction >? 0 then 1 else -1)
                   (if s2 direction >? 0 then 1 else -1))
    with (signs direction).
  destruct (bresenham fuel point direction (signs direction) bound [])
    as [pos| | |] eqn:E1; cbn [bind]; try reflexivity.
  rewrite bresenham_acc.
  destruct (bresenham fuel point direction (opposite (signs direction)) bound [])
    as [neg| | |]; cbn [bind]; try reflexivity.
  rewrite !rev_app_distr, rev_involutive. reflexivity.
Qed.

Lemma get_line_points_total point direction bound :
  nonzero direction ->
  exists n, forall fuel, (n <= fuel)%nat ->
    exists l, get_line_points fuel point direction bound = Ret l.
Proof.
  intros Hnz.
  set (d := driving_of direction).
  exists (S (Nat.max (ray_measure (signs direction) bound d point)
                     (ray_measure (opposite (signs direction)) bound d point))).
  intros fuel Hfuel. rewrite (get_line_points_unfold _ _ _ _ Hnz).
  destruct (bresenham_terminates direction (signs direction) bound Hnz
              (signs_unit direction d) fuel point []) as [pos ->];
    [fold d; lia|].
  destruct (bresenham_terminates direction (opposite (signs direction)) bound
              Hnz (opposite_unit _ _ (signs_unit direction d)) fuel point [])
    as [neg ->]; [fold d; lia|].
  simpl. eexists; reflexivity.
Qed.

Lemma get_line_points_shape fuel point direction bound l :
  nonzero direction ->
  get_line_points fuel point direction bound = Ret l ->
  exists neg pos,
    bresenham fuel point direction (opposite (signs direction)) bound [] = Ret neg /\
    bresenham fuel point direction (signs direction) bound [] = Ret pos /\
    l = rev neg ++ point :: pos.
Proof.
  intros Hnz. rewrite (get_line_points_unfold _ _ _ _ Hnz).
  destruct (bresenham fuel point direction (signs direction) bound [])
    as [pos| | |]; simpl; try discriminate.
  destruct (bresenham fuel point direction (opposite (signs direction)) bound [])
    as [neg| | |]; simpl; try discriminate.
  intros H; inversion H; subst. exists neg, pos. auto.
Qed.

(** C8: with the zero direction vector [get_line_points] returns the empty
    sequence, for every seed point, every bound and every fuel. *)
Theorem get_line_points_zero_direction fuel point bound :
  get_line_points fuel point (mkScalar 0 0 0) bound = Ret [].
Proof. reflexivity. Qed.

(** ** Exactness of the stepping loop

    After as many iterations as the absolute delta of the driving axis, the
    walk that started at [start] with the initial error terms stands exactly
    on [start + delta]. *)

Section Exactness.

Variables (d m1 m2 : axis) (Adx Ady Adz : Z) (inc start : Scalar).
Variable keep : Scalar -> bool.

Local Abbreviation A := (delta_of Adx Ady Adz).
Local Abbreviation d2 := (doubled Adx Ady Adz).
Local Abbreviation exact := (exact_at d m1 m2 Adx Ady Adz inc start).

Hypothesis Hroles : roles d m1 m2.
Hypothesis Hm1 : 0 <= A m1 <= A d.
Hypothesis Hm2 : 0 <= A m2 <= A d.
Hypothesis Hd : 1 <= A d.

Lemma exact_at_start :
  exact 0 (mkWalk start (A m1 * 2 - A d) (A m2 * 2 - A d)).
Proof. exists 0, 0. cbn [cur err_1 err_2]. lia. Qed.

Lemma doubled_delta a : d2 a = A a * 2.
Proof. destruct a; reflexivity. Qed.

Lemma exact_at_step k w :
  exact k w -> exact (k + 1) (line_step d m1 m2 d2 inc w).
Proof.
  intros (t1 & t2 & Hcd & Hc1 & Hc2 & He1 & Hb1 & He2 & Hb2).
  unfold line_step. rewrite !doubled_delta.
  set (u1 := if err_1 w >? 0 then 1 else 0).
  set (u2 := if err_2 w >? 0 then 1 else 0).
  exists (t1 + u1), (t2 + u2).
  subst u1 u2.
  destruct Hroles;
    destruct (Z.gtb_spec (err_1 w) 0), (Z.gtb_spec (err_2 w) 0);
    cbn [cur err_1 err_2 get add_at s0 s1 s2] in *;
    repeat split; lia.
Qed.

Lemma line_loop_exact n : forall k w pts w' pts',
  exact k w ->
  line_loop d m1 m2 d2 inc keep n w pts = (w', pts') ->
  keep (cur w') = false \/ exact (k + Z.of_nat n) w'.
Proof.
  induction n as [|n IH]; intros k w pts w' pts' Hk; simpl line_loop.
  - intros H; inversion H; subst. right.
    replace (k + Z.of_nat 0) with k by lia. assumption.
  - destruct (keep (cur (line_step d m1 m2 d2 inc w))) eqn:E.
    + intros H. apply (IH (k + 1)) in H; [|apply exact_at_step; assumption].
      replace (k + Z.of_nat (S n)) with (k + 1 + Z.of_nat n) by lia.
      assumption.
    + intros H; inversion H; subst. left. assumption.
Qed.

Lemma exact_at_end w :
  exact (A d) w ->
  get d (cur w) = get d start + A d * get d inc /\
  get m1 (cur w) = get m1 start + A m1 * get m1 inc /\
  get m2 (cur w) = get m2 start + A m2 * get m2 inc.
Proof.
  intros (t1 & t2 & Hcd & Hc1 & Hc2 & He1 & Hb1 & He2 & Hb2).
  assert (t1 = A m1) by nia.
  assert (t2 = A m2) by nia.
  subst t1 t2. auto.
Qed.

End Exactness.

(** ** [get_line_seg_points] *)

Lemma Scalar_eqb_eq p q : Scalar_eqb p q = true <-> p = q.
Proof.
  unfold Scalar_eqb. rewrite !andb_true_iff, !Z.eqb_eq.
  destruct p, q; simpl. split.
  - intros [[-> ->] ->]. reflexivity.
  - intros H; inversion H; auto.
Qed.

Lemma Scalar_eqb_refl p : Scalar_eqb p p = true.
Proof. apply Scalar_eqb_eq. reflexivity. Qed.

Lemma SWAP_swap a b : SWAP (a, b) = (b, a).
Proof. unfold SWAP. f_equal; lia. Qed.

Lemma get_line_seg_points_unfold fuel start end_ bound :
  get_line_seg_points fuel start end_ bound =
  if Scalar_eqb start end_ then Ret []
  else if out_of_canvas start bound && out_of_canvas end_ bound then Ret []
  else
    let '(anchor, target) := seg_ends start end_ bound in
    let delta := minus target anchor in
    re <- seg_while fuel (Z.abs (s0 delta)) (Z.abs (s1 delta))
            (Z.abs (s2 delta)) (signs delta) target bound anchor [anchor] ;;
    Ret (re ++ [target]).
Proof.
  unfold get_line_seg_points, seg_ends, Scalar_eqb.
  destruct start as [x y z], end_ as [x2 y2 z2]. cbn [s0 s1 s2].
  destruct ((x =? x2) && (y =? y2) && (z =? z2)); [reflexivity|].
  destruct (out_of_canvas _ _ && out_of_canvas _ _); [reflexivity|].
  rewrite !SWAP_swap.
  destruct (out_of_canvas _ _ && negb (out_of_canvas _ _)); reflexivity.
Qed.

Lemma signs_delta delta a :
  Z.abs (get a delta) * get a (signs delta) = get a delta.
Proof.
  destruct a; cbn [get signs s0 s1 s2];
    match goal with |- context [?v >? 0] => destruct (Z.gtb_spec v 0) end;
    lia.
Qed.

(** The stepping loop of a segment always ends at a [break]: on a point out
    of the canvas, or on the target, which the last iteration reaches. *)
Lemma seg_blocks_stop anchor target bound re p' re' :
  Scalar_eqb anchor target = false ->
  let delta := minus target anchor in
  line_blocks (Z.abs (s0 delta)) (Z.abs (s1 delta)) (Z.abs (s2 delta))
              (signs delta) (seg_keep target bound) anchor re = (p', re') ->
  seg_keep target bound p' = false /\
  exists new, re' = re ++ new /\
              Forall (fun q => seg_keep target bound q = true) new.
Proof.
  intros Hne delta H. split.
  - rewrite line_blocks_driving in H. unfold driven_loop in H.
    destruct (line_loop _ _ _ _ _ _ _ _ _) as [w pts] eqn:E.
    simpl in H. inversion H; subst p' re'; clear H.
    set (Adx := Z.abs (s0 delta)) in *.
    set (Ady := Z.abs (s1 delta)) in *.
    set (Adz := Z.abs (s2 delta)) in *.
    pose proof (driving_max Adx Ady Adz) as Hmax. cbv zeta in Hmax.
    assert (Hnz : 1 <= delta_of Adx Ady Adz (driving Adx Ady Adz)).
    { destruct (Z.eq_dec (s0 delta) 0) as [H0|H0];
        [destruct (Z.eq_dec (s1 delta) 0) as [H1|H1];
         [destruct (Z.eq_dec (s2 delta) 0) as [H2|H2]|]|]; try lia.
      exfalso. apply not_true_iff_false in Hne. apply Hne.
      apply Scalar_eqb_eq. unfold delta, minus in H0, H1, H2.
      cbn [s0 s1 s2] in H0, H1, H2.
      destruct anchor, target; simpl in *; f_equal; lia. }
    assert (Hpos : forall a, 0 <= delta_of Adx Ady Adz a).
    { intros a; destruct a; simpl; lia. }
    set (d := driving Adx Ady Adz) in *.
    assert (H1 : 0 <= delta_of Adx Ady Adz (minor1 d) <= delta_of Adx Ady Adz d)
      by (split; [apply Hpos | apply Hmax]).
    assert (H2 : 0 <= delta_of Adx Ady Adz (minor2 d) <= delta_of Adx Ady Adz d)
      by (split; [apply Hpos | apply Hmax]).
    pose proof (exact_at_start d (minor1 d) (minor2 d) Adx Ady Adz
                  (signs delta) anchor Hnz) as Hs.
    destruct (line_loop_exact _ _ _ _ _ _ _ _ _ (roles_driving d) H1 H2 Hnz
                _ _ _ _ _ _ Hs E) as [Ek | Ee]; [exact Ek|].
    rewrite Z.add_0_l, Z2Nat.id in Ee by lia.
    apply exact_at_end in Ee; [|assumption..].
    assert (Heq : cur w = target).
    { pose proof (signs_delta delta AX) as SX.
      pose proof (signs_delta delta AY) as SY.
      pose proof (signs_delta delta AZ) as SZ.
      destruct Ee as (E1 & E2 & E3).
      subst d. unfold delta, minus in *. fold Adx Ady Adz in SX, SY, SZ.
      destruct (cur w) as [cx cy cz], anchor as [ax0 ay0 az0],
        target as [tx ty tz].
      destruct (driving Adx Ady Adz);
        cbn [get minor1 minor2 delta_of s0 s1 s2] in *; f_equal; lia. }
    unfold seg_keep. rewrite Heq, Scalar_eqb_refl.
    apply andb_false_r.
  - apply line_blocks_spec in H. destruct H as (new & -> & Hall & _).
    exists new. auto.
Qed.

Lemma seg_while_ret fuel anchor target bound re l :
  Scalar_eqb anchor target = false ->
  out_of_canvas anchor bound = false ->
  let delta := minus target anchor in
  seg_while fuel (Z.abs (s0 delta)) (Z.abs (s1 delta)) (Z.abs (s2 delta))
            (signs delta) target bound anchor re = Ret l ->
  (2 <= fuel)%nat /\
  exists new, l = re ++ new /\
              Forall (fun q => seg_keep target bound q = true) new.
Proof.
  intros Hne Hin delta.
  destruct fuel as [|fuel]; [discriminate|].
  cbn [seg_while]. rewrite Hne, Hin. cbn [negb andb].
  change (fun q => negb (out_of_canvas q bound) && negb (Scalar_eqb q target))
    with (seg_keep target bound).
  destruct (line_blocks _ _ _ _ _ _ _) as [p' re'] eqn:E.
  apply seg_blocks_stop in E; [|assumption].
  destruct E as (Hstop & new & -> & Hall).
  destruct fuel as [|fuel]; [discriminate|].
  cbn [seg_while]. unfold seg_keep in Hstop. rewrite Hstop.
  intros H; inversion H; subst. split; [lia|]. exists new. auto.
Qed.

Lemma seg_while_total fuel anchor target bound re :
  Scalar_eqb anchor target = false ->
  out_of_canvas anchor bound = false ->
  let delta := minus target anchor in
  exists l,
    seg_while (S (S fuel)) (Z.abs (s0 delta)) (Z.abs (s1 delta))
              (Z.abs (s2 delta)) (signs delta) target bound anchor re = Ret l.
Proof.
  intros Hne Hin delta.
  cbn [seg_while]. rewrite Hne, Hin. cbn [negb andb].
  change (fun q => negb (out_of_canvas q bound) && negb (Scalar_eqb q target))
    with (seg_keep target bound).
  destruct (line_blocks _ _ _ _ _ _ _) as [p' re'] eqn:E.
  apply seg_blocks_stop in E; [|assumption].
  destruct E as (Hstop & _). unfold seg_keep in Hstop. rewrite Hstop.
  eexists; reflexivity.
Qed.

Lemma seg_ends_anchor start end_ bound :
  out_of_canvas start bound && out_of_canvas end_ bound = false ->
  out_of_canvas (fst (seg_ends start end_ bound)) bound = false.
Proof.
  unfold seg_ends.
  destruct (out_of_canvas start bound) eqn:Hs,
    (out_of_canvas end_ bound) eqn:He; simpl; congruence.
Qed.

Lemma seg_ends_distinct start end_ bound :
  Scalar_eqb start end_ = false ->
  Scalar_eqb (fst (seg_ends start end_ bound))
             (snd (seg_ends start end_ bound)) = false.
Proof.
  unfold seg_ends. intros H.
  destruct (out_of_canvas start bound && negb (out_of_canvas end_ bound));
    simpl; [|assumption].
  apply not_true_iff_false. intros E. apply Scalar_eqb_eq in E. subst.
  rewrite Scalar_eqb_refl in H. discriminate.
Qed.

(** The result of [get_line_seg_points]: empty under one of the two
    guards, and otherwise the anchor, the points kept by the stepping loop,
    the target. *)
Lemma get_line_seg_points_shape fuel start end_ bound l :
  get_line_seg_points fuel start end_ bound = Ret l ->
  (l = [] /\
   (Scalar_eqb start end_ = true \/
    out_of_canvas start bound && out_of_canvas end_ bound = true)) \/
  (Scalar_eqb start end_ = false /\
   out_of_canvas start bound && out_of_canvas end_ bound = false /\
   exists new,
     l = fst (seg_ends start end_ bound) :: new
         ++ [snd (seg_ends start end_ bound)] /\
     Forall (fun q => seg_keep (snd (seg_ends start end_ bound)) bound q = true)
            new).
Proof.
  rewrite get_line_seg_points_unfold.
  destruct (Scalar_eqb start end_) eqn:Hne;
    [intros H; inversion H; auto|].
  destruct (out_of_canvas start bound && out_of_canvas end_ bound) eqn:Hout;
    [intros H; inversion H; auto|].
  pose proof (seg_ends_anchor _ _ _ Hout) as Hin.
  pose proof (seg_ends_distinct _ _ bound Hne) as Hd.
  destruct (seg_ends start end_ bound) as [anchor target]. simpl in Hin, Hd.
  cbv zeta.
  destruct (seg_while _ _ _ _ _ _ _ _ _) as [re0| | |] eqn:E;
    cbn [bind]; try discriminate.
  apply seg_while_ret in E; try assumption.
  destruct E as (_ & new & -> & Hall).
  intros H; inversion H; subst. right.
  split; [reflexivity|]. split; [reflexivity|].
  exists new. split; [reflexivity | assumption].
Qed.

Lemma get_line_seg_points_total fuel start end_ bound :
  exists l, get_line_seg_points (S (S fuel)) start end_ bound = Ret l.
Proof.
  rewrite get_line_seg_points_unfold.
  destruct (Scalar_eqb start end_) eqn:Hne; [eexists; reflexivity|].
  destruct (out_of_canvas start bound && out_of_canvas end_ bound) eqn:Hout;
    [eexists; reflexivity|].
  pose proof (seg_ends_anchor _ _ _ Hout) as Hin.
  pose proof (seg_ends_distinct _ _ bound Hne) as Hd.
  destruct (seg_ends start end_ bound) as [anchor target]. simpl in Hin, Hd.
  cbv zeta.
  destruct (seg_while_total fuel anchor target bound [anchor] Hd Hin) as [l ->].
  cbn [bind]. eexists; reflexivity.
Qed.

Lemma get_line_seg_points_ends fuel start end_ bound l :
  start <> end_ ->
  out_of_canvas start bound = false \/ out_of_canvas end_ bound = false ->
  get_line_seg_points fuel start end_ bound = Ret l ->
  l <> [] /\
  last l start = if out_of_canvas start bound then start else end_.
Proof.
  intros Hne Hin H. apply get_line_seg_points_shape in H.
  assert (Hneb : Scalar_eqb start end_ = false).
  { apply not_true_iff_false. intros E. apply Scalar_eqb_eq in E. tauto. }
  assert (Hout : out_of_canvas start bound && out_of_canvas end_ bound = false).
  { destruct Hin as [-> | ->]; [reflexivity | apply andb_false_r]. }
  destruct H as [(_ & [E | E]) | (_ & _ & new & -> & _)]; [congruence.. |].
  split; [discriminate|].
  change (fst (seg_ends start end_ bound)
            :: new ++ [snd (seg_ends start end_ bound)])
    with ((fst (seg_ends start end_ bound) :: new)
            ++ [snd (seg_ends start end_ bound)]).
  rewrite last_last. unfold seg_ends.
  destruct (out_of_canvas start bound) eqn:Hs,
    (out_of_canvas end_ bound) eqn:He; simpl; try reflexivity.
  destruct Hin; discriminate.
Qed.

(** C2, as the code has it: for two distinct points of which at least one
    is in the canvas, [get_line_seg_points] returns (two units of fuel are
    enough) a non-empty sequence whose last element is [end] when [start]
    is in the canvas, and is [start] when [start] is out of the canvas:
    the two points are then exchanged and the rasterisation grows from
    [end] to [start]. *)
Theorem get_line_seg_points_last start end_ bound :
  start <> end_ ->
  out_of_canvas start bound = false \/ out_of_canvas end_ bound = false ->
  (exists l, get_line_seg_points 2 start end_ bound = Ret l) /\
  (forall fuel l,
     get_line_seg_points fuel start end_ bound = Ret l ->
     l <> [] /\
     last l start = if out_of_canvas start bound then start else end_).
Proof.
  intros Hne Hin. split; [apply get_line_seg_points_total|].
  intros fuel l. apply get_line_seg_points_ends; assumption.
Qed.

Lemma get_line_seg_points_last_witness :
  mkScalar 0 0 0 <> mkScalar 4 0 0 /\
  (out_of_canvas (mkScalar 0 0 0) (mkScalar 10 10 10) = false \/
   out_of_canvas (mkScalar 4 0 0) (mkScalar 10 10 10) = false) /\
  (exists l,
     get_line_seg_points 2 (mkScalar 0 0 0) (mkScalar 4 0 0)
                         (mkScalar 10 10 10) = Ret l) /\
  last [mkScalar 0 0 0; mkScalar 1 0 0; mkScalar 2 0 0; mkScalar 3 0 0;
        mkScalar 4 0 0] (mkScalar 0 0 0) = mkScalar 4 0 0.
Proof.
  assert (Hne : mkScalar 0 0 0 <> mkScalar 4 0 0) by discriminate.
  destruct (get_line_seg_points_last (mkScalar 0 0 0) (mkScalar 4 0 0)
              (mkScalar 10 10 10) Hne (or_introl eq_refl)) as [H1 H2].
  split; [exact Hne|]. split; [left; reflexivity|]. split; [exact H1|].
  exact (proj2 (H2 2%nat _ eq_refl)).
Defined.

(** C2 fails as stated.  With [start] out of the canvas and [end] in it the
    two points are exchanged and the last element is [start]; with
    [start = end] in the canvas the result is empty. *)
Lemma get_line_seg_points_last_counterexample :
  out_of_canvas (mkScalar 2 0 0) (mkScalar 10 10 10) = false /\
  get_line_seg_points 2 (mkScalar (-1) 0 0) (mkScalar 2 0 0)
                      (mkScalar 10 10 10)
  = Ret [mkScalar 2 0 0; mkScalar 1 0 0; mkScalar 0 0 0; mkScalar (-1) 0 0] /\
  last [mkScalar 2 0 0; mkScalar 1 0 0; mkScalar 0 0 0; mkScalar (-1) 0 0]
       (mkScalar (-1) 0 0) <> mkScalar 2 0 0 /\
  get_line_seg_points 2 (mkScalar 2 0 0) (mkScalar 2 0 0) (mkScalar 10 10 10)
  = Ret [].
Proof.
  split; [reflexivity|]. split; [reflexivity|].
  split; [discriminate | reflexivity].
Qed.

(** ** Canvas membership of the returned points *)

Lemma seg_keep_in_canvas target bound q :
  seg_keep target bound q = true -> in_canvas bound q.
Proof.
  unfold seg_keep, in_canvas. destruct (out_of_canvas q bound);
    [discriminate | reflexivity].
Qed.

Lemma get_line_points_canvas fuel point direction bound l :
  get_line_points fuel point direction bound = Ret l ->
  Forall (fun q => in_canvas bound q \/ q = point) l.
Proof.
  destruct ((s0 direction =? 0) && (s1 direction =? 0) && (s2 direction =? 0))
    eqn:Hz.
  - unfold get_line_points. rewrite Hz. intros H; inversion H. constructor.
  - intros H.
    destruct (get_line_points_shape _ _ _ _ _ Hz H)
      as (neg & pos & Hneg & Hpos & ->).
    apply bresenham_spec in Hneg. apply bresenham_spec in Hpos.
    destruct Hneg as (neg' & Eneg & Fneg & _).
    destruct Hpos as (pos' & Epos & Fpos & _).
    simpl in Eneg, Epos. subst neg' pos'.
    apply Forall_app. split.
    + apply Forall_rev. eapply Forall_impl; [|exact Fneg]. auto.
    + constructor; [right; reflexivity|].
      eapply Forall_impl; [|exact Fpos]. auto.
Qed.

Lemma get_line_points_returns point direction bound :
  exists fuel l, get_line_points fuel point direction bound = Ret l.
Proof.
  destruct ((s0 direction =? 0) && (s1 direction =? 0) && (s2 direction =? 0))
    eqn:Hz.
  - exists O, []. unfold get_line_points. rewrite Hz. reflexivity.
  - destruct (get_line_points_total point direction bound Hz) as [n Hn].
    exists n. apply Hn. lia.
Qed.

Lemma get_line_seg_points_canvas fuel start end_ bound l :
  get_line_seg_points fuel start end_ bound = Ret l ->
  Forall (in_canvas bound) (removelast l) /\
  Forall (fun q => in_canvas bound q \/ q = start \/ q = end_) l.
Proof.
  intros H. apply get_line_seg_points_shape in H.
  destruct H as [[-> _] | (_ & Hout & new & -> & Hall)].
  - split; constructor.
  - assert (Hbody : Forall (in_canvas bound)
                           (fst (seg_ends start end_ bound) :: new)).
    { constructor; [apply seg_ends_anchor; assumption|].
      eapply Forall_impl; [|exact Hall].
      intros q. apply seg_keep_in_canvas. }
    change (fst (seg_ends start end_ bound)
              :: new ++ [snd (seg_ends start end_ bound)])
      with ((fst (seg_ends start end_ bound) :: new)
              ++ [snd (seg_ends start end_ bound)]).
    split.
    + rewrite removelast_last. assumption.
    + apply Forall_app. split.
      * eapply Forall_impl; [|exact Hbody]. auto.
      * constructor; [|constructor]. right. unfold seg_ends.
        destruct (out_of_canvas start bound && negb (out_of_canvas end_ bound));
          simpl; auto.
Qed.

Section EllipseCanvas.

Variable ellipse2Poly : Z * Z -> Z * Z -> Z -> Z -> Z -> Z -> list (Z * Z).

Lemma poly_segments_canvas fuel frame bound : forall v p0 re l,
  poly_segments fuel frame bound p0 v re = Ret l ->
  exists new,
    l = re ++ new /\
    Forall (fun q => in_canvas bound q \/
                     exists u, In u (p0 :: v) /\ q = vertex_point frame u)
           new.
Proof.
  induction v as [|p v IH]; intros p0 re l; cbn [poly_segments].
  - intros H; inversion H; subst. exists []. rewrite app_nil_r.
    split; [reflexivity | constructor].
  - destruct (get_line_seg_points fuel _ _ bound) as [temp| | |] eqn:E;
      cbn [bind]; try discriminate.
    intros H. apply IH in H. destruct H as (new & -> & Hnew).
    unfold vector_append.
    apply get_line_seg_points_canvas in E. destruct E as [_ E].
    exists (temp ++ new). rewrite app_assoc. split; [reflexivity|].
    apply Forall_app. split.
    + eapply Forall_impl; [|exact E]. intros q [Hq | [Hq | Hq]].
      * left; assumption.
      * right. exists p0. split; [left; reflexivity | exact Hq].
      * right. exists p. split; [right; left; reflexivity | exact Hq].
    + eapply Forall_impl; [|exact Hnew]. intros q [Hq | (u & Hu & Hq)].
      * left; assumption.
      * right. exists u. split; [right; exact Hu | exact Hq].
Qed.

Lemma poly_segments_total frame bound : forall v p0 re,
  exists l, poly_segments 2 frame bound p0 v re = Ret l.
Proof.
  induction v as [|p v IH]; intros p0 re; cbn [poly_segments].
  - eexists; reflexivity.
  - destruct (get_line_seg_points_total 0 (mkScalar (fst p0) (snd p0) frame)
                (mkScalar (fst p) (snd p) frame) bound) as [temp ->].
    cbn [bind]. apply IH.
Qed.

Lemma get_ellipse_points_canvas fuel centre param bound l :
  get_ellipse_points ellipse2Poly fuel centre param bound = Ret l ->
  Forall (fun q => in_canvas bound q \/
                   exists u, In u (ellipse_vertices ellipse2Poly centre param)
                             /\ q = vertex_point (s2 centre) u) l.
Proof.
  unfold get_ellipse_points.
  destruct (ellipse_vertices ellipse2Poly centre param) as [|p0 v].
  - intros H; inversion H. constructor.
  - intros H. apply poly_segments_canvas in H.
    destruct H as (new & -> & Hnew). exact Hnew.
Qed.

Lemma get_ellipse_points_total centre param bound :
  exists l, get_ellipse_points ellipse2Poly 2 centre param bound = Ret l.
Proof.
  unfold get_ellipse_points.
  destruct (ellipse_vertices ellipse2Poly centre param) as [|p0 v].
  - eexists; reflexivity.
  - apply poly_segments_total.
Qed.

End EllipseCanvas.

(** C3, as the code has it: [get_line_points], [get_line_seg_points] and
    [get_ellipse_points] return (with enough fuel), and every candidate
    point generated by the stepping loops is in the canvas; the seed point
    of a line and the target end point of a segment are pushed without a
    canvas test.  So every point returned by [get_line_points] other than
    the seed point is in the canvas, every point returned by
    [get_line_seg_points] other than its last element is in the canvas, and
    every point returned by [get_ellipse_points] is in the canvas or is a
    vertex of the polygon; all returned points are in the canvas when the
    seed point, respectively both end points, are. *)
Theorem returned_points_canvas
    (ellipse2Poly : Z * Z -> Z * Z -> Z -> Z -> Z -> Z -> list (Z * Z))
    (point direction start end_ centre param bound : Scalar) :
  ((exists fuel l, get_line_points fuel point direction bound = Ret l) /\
   forall fuel l,
     get_line_points fuel point direction bound = Ret l ->
     Forall (fun q => in_canvas bound q \/ q = point) l /\
     (in_canvas bound point -> Forall (in_canvas bound) l)) /\
  ((exists l, get_line_seg_points 2 start end_ bound = Ret l) /\
   forall fuel l,
     get_line_seg_points fuel start end_ bound = Ret l ->
     Forall (in_canvas bound) (removelast l) /\
     (in_canvas bound start -> in_canvas bound end_ ->
      Forall (in_canvas bound) l)) /\
  ((exists l, get_ellipse_points ellipse2Poly 2 centre param bound = Ret l) /\
   forall fuel l,
     get_ellipse_points ellipse2Poly fuel centre param bound = Ret l ->
     Forall (fun q => in_canvas bound q \/
                      exists u, In u (ellipse_vertices ellipse2Poly centre param)
                                /\ q = vertex_point (s2 centre) u) l).
Proof.
  split; [|split].
  - split; [apply get_line_points_returns|].
    intros fuel l H. apply get_line_points_canvas in H.
    split; [assumption|]. intros Hp.
    eapply Forall_impl; [|exact H]. intros q [Hq | ->]; assumption.
  - split; [apply get_line_seg_points_total|].
    intros fuel l H. apply get_line_seg_points_canvas in H.
    destruct H as [H1 H2]. split; [assumption|]. intros Hs He.
    eapply Forall_impl; [|exact H2]. intros q [Hq | [-> | ->]]; assumption.
  - split; [apply get_ellipse_points_total|].
    intros fuel l. apply get_ellipse_points_canvas.
Qed.

Lemma returned_points_canvas_witness :
  Forall (in_canvas (mkScalar 5 3 1))
         [mkScalar 0 1 0; mkScalar 1 1 0; mkScalar 2 1 0; mkScalar 3 1 0;
          mkScalar 4 1 0] /\
  Forall (in_canvas (mkScalar 10 10 10))
         [mkScalar 0 0 0; mkScalar 1 0 0; mkScalar 2 1 1; mkScalar 3 1 1;
          mkScalar 4 2 1; mkScalar 5 2 1; mkScalar 6 3 2; mkScalar 7 3 2].
Proof.
  pose proof (returned_points_canvas
                (fun _ _ _ _ _ _ => [])
                (mkScalar 2 1 0) (mkScalar 1 0 0)
                (mkScalar 0 1 0) (mkScalar 4 1 0)
                (mkScalar 0 0 0) (mkScalar 0 0 0) (mkScalar 5 3 1)) as H1.
  pose proof (returned_points_canvas
                (fun _ _ _ _ _ _ => [])
                (mkScalar 0 0 0) (mkScalar 0 0 0)
                (mkScalar 0 0 0) (mkScalar 7 3 2)
                (mkScalar 0 0 0) (mkScalar 0 0 0) (mkScalar 10 10 10)) as H2.
  split.
  - apply (proj2 (proj1 H1) 10%nat); reflexivity.
  - apply (proj2 (proj1 (proj2 H2)) 2%nat); reflexivity.
Defined.

(** C3 fails as stated: a seed point out of the canvas is returned by
    [get_line_points], and so is, by [get_line_seg_points], an end point
    out of the canvas. *)
Lemma returned_points_canvas_counterexample :
  get_line_points 10 (mkScalar (-1) 0 0) (mkScalar 1 0 0) (mkScalar 3 1 1)
  = Ret [mkScalar (-1) 0 0; mkScalar 0 0 0; mkScalar 1 0 0; mkScalar 2 0 0] /\
  out_of_canvas (mkScalar (-1) 0 0) (mkScalar 3 1 1) = true /\
  get_line_seg_points 2 (mkScalar 1 0 0) (mkScalar 4 0 0) (mkScalar 3 1 1)
  = Ret [mkScalar 1 0 0; mkScalar 2 0 0; mkScalar 4 0 0] /\
  out_of_canvas (mkScalar 4 0 0) (mkScalar 3 1 1) = true.
Proof. repeat split. Qed.

(** ** Scharr gradient at the border *)

(** C9: at a point whose column or row is less than 1, whose column exceeds
    [width - 2] or whose row exceeds [height - 2], [cv_imgs_point_scharr]
    returns exactly 0. *)
Theorem cv_imgs_point_scharr_border images point :
  s0 point < 1 \/ s1 point < 1 \/
  s0 point > cols images - 2 \/ s1 point > rows images - 2 ->
  cv_imgs_point_scharr images point = 0%R.
Proof.
  intros H. unfold cv_imgs_point_scharr. rewrite !Z.gtb_ltb.
  destruct (Z.ltb_spec (s0 point) 1); [reflexivity|].
  destruct (Z.ltb_spec (s1 point) 1); [reflexivity|].
  destruct (Z.ltb_spec (cols images - 2) (s0 point)); [reflexivity|].
  destruct (Z.ltb_spec (rows images - 2) (s1 point)); [reflexivity|].
  lia.
Qed.

Lemma cv_imgs_point_scharr_border_witness :
  (s0 (mkScalar 0 1 0) < 1 \/ s1 (mkScalar 0 1 0) < 1 \/
   s0 (mkScalar 0 1 0) > 5 - 2 \/ s1 (mkScalar 0 1 0) > 3 - 2) /\
  cv_imgs_point_scharr (mkImages 5 3 1 (fun _ _ _ => mkVec3b 7 7 7))
                       (mkScalar 0 1 0) = 0%R.
Proof.
  split; [left; reflexivity|].
  apply (cv_imgs_point_scharr_border
           (mkImages 5 3 1 (fun _ _ _ => mkVec3b 7 7 7)) (mkScalar 0 1 0)).
  left; reflexivity.
Defined.

(** ** Guard of the ellipse fitter *)

(** C6: given fewer than 5 points (4 points in particular), [fit_ellipse]
    fails on its assertion and returns no centre and no parameters. *)
Theorem fit_ellipse_few_points (eig_conic : list Scalar -> conic) points :
  (length points < 5)%nat ->
  fit_ellipse eig_conic points = AssertFailed.
Proof.
  intros H. unfold fit_ellipse. rewrite Z.geb_leb.
  destruct (Z.leb_spec 5 (Z.of_nat (length points))); [lia | reflexivity].
Qed.

Lemma fit_ellipse_few_points_witness :
  (length [mkScalar 0 0 0; mkScalar 1 0 0; mkScalar 0 1 0; mkScalar 1 1 0] < 5)%nat /\
  fit_ellipse (fun _ => mkConic 0 0 0 0 0 0)
              [mkScalar 0 0 0; mkScalar 1 0 0; mkScalar 0 1 0; mkScalar 1 1 0]
  = AssertFailed.
Proof.
  split; [simpl; lia|].
  apply (fit_ellipse_few_points (fun _ => mkConic 0 0 0 0 0 0)
           [mkScalar 0 0 0; mkScalar 1 0 0; mkScalar 0 1 0; mkScalar 1 1 0]).
  simpl; lia.
Defined.

(** ** Symmetry of the histogram comparison *)

Lemma freq_incr_cases freq channel f :
  (exists freq', freq_incr freq channel f = Ret freq') \/
  freq_incr freq channel f = Undefined.
Proof.
  unfold freq_incr. destruct ((0 <=? f) && (f <? 32)); eauto.
Qed.

Lemma count_color_cases freq lab :
  (exists freq', count_color freq lab = Ret freq') \/
  count_color freq lab = Undefined.
Proof.
  unfold count_color.
  destruct (freq_incr_cases freq 0 (double_to_int (r0 lab / 8)))
    as [[f0 ->] | ->]; cbn [bind]; [|auto].
  destruct (freq_incr_cases f0 1 (double_to_int (r1 lab / 8)))
    as [[f1 ->] | ->]; cbn [bind]; [|auto].
  apply freq_incr_cases.
Qed.

Lemma count_colors_cases colors : forall freq,
  (exists freq', count_colors colors freq = Ret freq') \/
  count_colors colors freq = Undefined.
Proof.
  induction colors as [|lab colors IH]; intros freq; cbn [count_colors].
  - eauto.
  - destruct (count_color_cases freq lab) as [[f ->] | ->]; cbn [bind]; auto.
Qed.

(** C7: [compare_hist] returns the same value when its two point sets are
    exchanged. *)
Theorem compare_hist_symmetric images points_1 points_2 :
  compare_hist images points_1 points_2 = compare_hist images points_2 points_1.
Proof.
  unfold compare_hist.
  destruct (count_colors_cases
              (map (fun p => cv_imgs_point_color_loc images p (mkScalar 0 0 0))
                   points_1) (fun _ _ => 0)) as [[freq_1 ->] | ->];
    destruct (count_colors_cases
                (map (fun p => cv_imgs_point_color_loc images p (mkScalar 0 0 0))
                     points_2) (fun _ _ => 0)) as [[freq_2 ->] | ->];
    cbn [bind]; try reflexivity.
  rewrite (Rplus_comm (kl_sum (hist freq_2) (hist freq_1) 0)).
  rewrite (Rplus_comm (kl_sum (hist freq_2) (hist freq_1) 1)).
  rewrite (Rplus_comm (kl_sum (hist freq_2) (hist freq_1) 2)).
  reflexivity.
Qed.

Lemma for_range_one v : for_range (v - 0) (v + 0) = [v].
Proof.
  unfold for_range. replace (v + 0 - (v - 0) + 1) with 1 by lia.
  simpl. f_equal. lia.
Qed.

Lemma local_point_set_zero_radius images p :
  out_of_canvas p (mkScalar (cols images) (rows images) (size images)) = false ->
  local_point_set images p (mkScalar 0 0 0) = [p].
Proof.
  intros Hin.
  pose proof (in_canvas_get _ _ AX Hin) as HX.
  pose proof (in_canvas_get _ _ AY Hin) as HY.
  pose proof (in_canvas_get _ _ AZ Hin) as HZ.
  destruct p as [x y z]. cbn [get s0 s1 s2] in HX, HY, HZ.
  unfold local_point_set, bound_scalar_3d, collect_pixels.
  cbn [get s0 s1 s2 fst snd]. rewrite !Z.geb_leb.
  destruct (Z.ltb_spec (x - 0) 0); [lia|].
  destruct (Z.ltb_spec (y - 0) 0); [lia|].
  destruct (Z.ltb_spec (z - 0) 0); [lia|].
  destruct (Z.leb_spec (cols images) (x + 0)); [lia|].
  destruct (Z.leb_spec (rows images) (y + 0)); [lia|].
  destruct (Z.leb_spec (size images) (z + 0)); [lia|].
  rewrite !for_range_one. cbn [flat_map app].
  unfold ellipsoid_term. cbn [get s0 s1 s2]. reflexivity.
Qed.

Lemma cv_imgs_point_color_loc_exact images p :
  out_of_canvas p (mkScalar (cols images) (rows images) (size images)) = false ->
  cv_imgs_point_color_loc images p (mkScalar 0 0 0)
  = mkScalarR (IZR (ch0 (pixel_at images p))) (IZR (ch1 (pixel_at images p)))
              (IZR (ch2 (pixel_at images p))).
Proof.
  intros Hin. unfold cv_imgs_point_color_loc. cbv zeta.
  rewrite (local_point_set_zero_radius _ _ Hin).
  unfold sum_colors, ScalarR_div. cbn [fold_left length r0 r1 r2 Z.of_nat].
  cbn [Pos.of_succ_nat]. f_equal; lra.
Qed.

Lemma double_to_int_bin v :
  0 <= v <= 255 -> 0 <= double_to_int (IZR v / 8) < 32.
Proof.
  intros [Hlo Hhi]. apply IZR_le in Hlo, Hhi.
  unfold double_to_int.
  destruct (Rle_dec 0 (IZR v / 8)) as [_ | Hneg]; [|exfalso; lra].
  destruct (base_Int_part (IZR v / 8)) as [H1 H2].
  split.
  - assert (IZR (-1) < IZR (Int_part (IZR v / 8)))%R as H by lra.
    apply lt_IZR in H. lia.
  - apply lt_IZR. lra.
Qed.

Lemma freq_incr_returns freq channel f :
  0 <= f < 32 -> exists freq', freq_incr freq channel f = Ret freq'.
Proof.
  intros [H1 H2]. unfold freq_incr.
  destruct (Z.leb_spec 0 f); [|lia]. destruct (Z.ltb_spec f 32); [|lia].
  eexists; reflexivity.
Qed.

Lemma count_colors_returns images points : forall freq,
  Forall (fun p =>
            out_of_canvas p (mkScalar (cols images) (rows images) (size images))
            = false /\ byte_pixel (pixel_at images p)) points ->
  exists freq',
    count_colors
      (map (fun p => cv_imgs_point_color_loc images p (mkScalar 0 0 0)) points)
      freq = Ret freq'.
Proof.
  induction points as [|p points IH]; intros freq Hall; cbn [map count_colors].
  - eexists; reflexivity.
  - inversion Hall as [|? ? [Hin (B0 & B1 & B2)] Hrest]; subst.
    rewrite (cv_imgs_point_color_loc_exact _ _ Hin).
    unfold count_color. cbn [r0 r1 r2].
    destruct (freq_incr_returns freq 0 _ (double_to_int_bin _ B0)) as [f0 ->].
    cbn [bind].
    destruct (freq_incr_returns f0 1 _ (double_to_int_bin _ B1)) as [f1 ->].
    cbn [bind].
    destruct (freq_incr_returns f1 2 _ (double_to_int_bin _ B2)) as [f2 ->].
    cbn [bind]. apply IH. assumption.
Qed.

(** [compare_hist] does return a value when every point is in the canvas
    and every channel of its pixel is an 8-bit value. *)
Lemma compare_hist_returns images points_1 points_2 :
  Forall (fun p =>
            out_of_canvas p (mkScalar (cols images) (rows images) (size images))
            = false /\ byte_pixel (pixel_at images p)) (points_1 ++ points_2) ->
  exists kl, compare_hist images points_1 points_2 = Ret kl.
Proof.
  intros Hall. apply Forall_app in Hall. destruct Hall as [H1 H2].
  unfold compare_hist.
  destruct (count_colors_returns images points_1 (fun _ _ => 0) H1) as [f1 ->].
  destruct (count_colors_returns images points_2 (fun _ _ => 0) H2) as [f2 ->].
  cbn [bind]. eexists; reflexivity.
Qed.

(** ** Threshold samplers: the reads of the first and of the last point *)

Lemma bresenham_cases fuel : forall current direction inc bound points,
  (exists l, bresenham fuel current direction inc bound points = Ret l) \/
  bresenham fuel current direction inc bound points = OutOfFuel.
Proof.
  induction fuel as [|fuel IH]; intros; cbn [bresenham]; [auto|].
  destruct (line_blocks _ _ _ _ _ _ _) as [q pts].
  destruct (negb (out_of_canvas q bound)); [apply IH | eauto].
Qed.








(** ** Thinning *)

Lemma thin_step_below images T st pt :
  (cv_imgs_point_scharr images pt < T)%R -> thin_step images T st pt = st.
Proof.
  intros H. unfold thin_step.
  destruct (Rge_dec (cv_imgs_point_scharr images pt) T); [lra | reflexivity].
Qed.

Lemma thin_step_open images T st pt :
  (cv_imgs_point_scharr images pt >= T)%R -> cont st = false ->
  thin_step images T st pt
  = mkThin (re st) pt pt (cv_imgs_point_scharr images pt) true.
Proof.
  intros H Hc. unfold thin_step.
  destruct (Rge_dec (cv_imgs_point_scharr images pt) T); [|lra].
  rewrite Hc. reflexivity.
Qed.

(** The loop only appends to [re]. *)
Lemma thin_loop_prefix images T l : forall st,
  exists mid, re (fold_left (thin_step images T) l st) = re st ++ mid.
Proof.
  induction l as [|pt l IH]; intros st; cbn [fold_left].
  - exists []. rewrite app_nil_r. reflexivity.
  - destruct (IH (thin_step images T st pt)) as [mid ->].
    unfold thin_step.
    destruct (Rge_dec _ _); [|eauto].
    destruct (negb (cont st)); [cbn [re]; eauto|].
    destruct (point_cont _ _).
    + destruct (Rge_dec _ _); cbn [re]; eauto.
    + cbn [re]. rewrite <- app_assoc. eauto.
Qed.

(** The part of C1 that holds: the first and the last rasterised points
    are returned, as first and last element. *)
Lemma thin_points_first_last images first l T :
  exists mid,
    thin_points images (first :: l) T
    = Ret (first :: mid ++ [last (first :: l) first]).
Proof.
  unfold thin_points.
  destruct (thin_loop_prefix images T (first :: l)
              (mkThin [first] (mkScalar 0 0 0) (mkScalar 0 0 0) 0%R false))
    as [mid ->].
  exists mid. reflexivity.
Qed.

Lemma scharr_edge_0 :
  cv_imgs_point_scharr edge_images (mkScalar 0 1 0) = 0%R.
Proof. reflexivity. Qed.

Lemma scharr_edge_1 :
  cv_imgs_point_scharr edge_images (mkScalar 1 1 0) = 0%R.
Proof.
  unfold cv_imgs_point_scharr. simpl. unfold gx, gy.
  replace (_ + _)%R with 0%R by lra.
  apply sqrt_0.
Qed.

Lemma scharr_edge_2 :
  cv_imgs_point_scharr edge_images (mkScalar 2 1 0) = 32%R.
Proof.
  unfold cv_imgs_point_scharr. simpl. unfold gx, gy.
  replace (_ + _)%R with (32 * 32)%R by lra.
  apply sqrt_square. lra.
Qed.

Lemma scharr_edge_3 :
  cv_imgs_point_scharr edge_images (mkScalar 3 1 0) = 0%R.
Proof.
  unfold cv_imgs_point_scharr. simpl. unfold gx, gy.
  replace (_ + _)%R with 0%R by lra.
  apply sqrt_0.
Qed.

Lemma scharr_edge_4 :
  cv_imgs_point_scharr edge_images (mkScalar 4 1 0) = 0%R.
Proof. reflexivity. Qed.

Lemma thin_points_edge :
  thin_points edge_images
    [mkScalar 0 1 0; mkScalar 1 1 0; mkScalar 2 1 0; mkScalar 3 1 0;
     mkScalar 4 1 0] 5
  = Ret [mkScalar 0 1 0; mkScalar 4 1 0].
Proof.
  unfold thin_points. cbn [fold_left].
  rewrite (thin_step_below edge_images 5 _ (mkScalar 0 1 0))
    by (rewrite scharr_edge_0; lra).
  rewrite (thin_step_below edge_images 5 _ (mkScalar 1 1 0))
    by (rewrite scharr_edge_1; lra).
  rewrite (thin_step_open edge_images 5 _ (mkScalar 2 1 0))
    by (try reflexivity; rewrite scharr_edge_2; lra).
  rewrite (thin_step_below edge_images 5 _ (mkScalar 3 1 0))
    by (rewrite scharr_edge_3; lra).
  rewrite (thin_step_below edge_images 5 _ (mkScalar 4 1 0))
    by (rewrite scharr_edge_4; lra).
  reflexivity.
Qed.

(** C1 fails on the code.  On [edge_images], along the row 1, the only
    point whose gradient reaches the threshold 5 is (2, 1, 0), with
    gradient 32: it is a run by itself, and its maximum.  Both samplers
    return the first and the last rasterised point only: the run is still
    open when the loop ends and is never pushed. *)
Theorem thinning_drops_open_run :
  get_line_points 10 (mkScalar 2 1 0) (mkScalar 1 0 0) (mkScalar 5 3 1)
  = Ret [mkScalar 0 1 0; mkScalar 1 1 0; mkScalar 2 1 0; mkScalar 3 1 0;
         mkScalar 4 1 0] /\
  (cv_imgs_point_scharr edge_images (mkScalar 2 1 0) >= 5)%R /\
  cv_line_pts_scharr_geq_T 10 edge_images (mkScalar 2 1 0) (mkScalar 1 0 0) 5
  = Ret [mkScalar 0 1 0; mkScalar 4 1 0] /\
  cv_line_seg_pts_scharr_geq_T 2 edge_images (mkScalar 0 1 0) (mkScalar 4 1 0) 5
  = Ret [mkScalar 0 1 0; mkScalar 4 1 0].
Proof.
  split; [reflexivity|].
  split; [rewrite scharr_edge_2; lra|].
  split.
  - unfold cv_line_pts_scharr_geq_T.
    change (get_line_points 10 (mkScalar 2 1 0) (mkScalar 1 0 0)
              (mkScalar (cols edge_images) (rows edge_images)
                        (size edge_images)))
      with (Ret [mkScalar 0 1 0; mkScalar 1 1 0; mkScalar 2 1 0;
                 mkScalar 3 1 0; mkScalar 4 1 0]).
    cbn [bind]. apply thin_points_edge.
  - unfold cv_line_seg_pts_scharr_geq_T.
    change (get_line_seg_points 2 (mkScalar 0 1 0) (mkScalar 4 1 0)
              (mkScalar (cols edge_images) (rows edge_images)
                        (size edge_images)))
      with (Ret [mkScalar 0 1 0; mkScalar 1 1 0; mkScalar 2 1 0;
                 mkScalar 3 1 0; mkScalar 4 1 0]).
    cbn [bind]. apply thin_points_edge.
Qed.

(** ** Local variance: the loops against the formula *)




Lemma sum_colors_acc images l : forall acc,
  fold_left (fun avg pos =>
               let pixel := pixel_at images pos in
               mkScalarR (r0 avg + IZR (ch0 pixel))
                         (r1 avg + IZR (ch1 pixel))
                         (r2 avg + IZR (ch2 pixel))) l acc
  = mkScalarR (r0 acc + sum (channel_values images ch0 l))
              (r1 acc + sum (channel_values images ch1 l))
              (r2 acc + sum (channel_values images ch2 l)).
Proof.
  induction l as [|pos l IH]; intros acc; cbn [fold_left].
  - destruct acc; simpl. f_equal; lra.
  - rewrite IH. cbv zeta. cbn [r0 r1 r2 channel_values map sum fold_right].
    fold (sum (channel_values images ch0 l)).
    fold (sum (channel_values images ch1 l)).
    fold (sum (channel_values images ch2 l)).
    unfold channel_values. f_equal; unfold sum; lra.
Qed.

Lemma sum_colors_channels images l :
  sum_colors images l
  = mkScalarR (sum (channel_values images ch0 l))
              (sum (channel_values images ch1 l))
              (sum (channel_values images ch2 l)).
Proof.
  unfold sum_colors. rewrite sum_colors_acc. cbn [r0 r1 r2]. f_equal; lra.
Qed.

Lemma sum_squares_acc images avg l : forall acc,
  fold_left (fun var pos =>
               let pixel := pixel_at images pos in
               mkScalarR (r0 var + (IZR (ch0 pixel) - r0 avg) ^ 2)
                         (r1 var + (IZR (ch1 pixel) - r1 avg) ^ 2)
                         (r2 var + (IZR (ch2 pixel) - r2 avg) ^ 2)) l acc
  = mkScalarR
      (r0 acc + sum (map (fun x => ((x - r0 avg) ^ 2)%R)
                         (channel_values images ch0 l)))
      (r1 acc + sum (map (fun x => ((x - r1 avg) ^ 2)%R)
                         (channel_values images ch1 l)))
      (r2 acc + sum (map (fun x => ((x - r2 avg) ^ 2)%R)
                         (channel_values images ch2 l))).
Proof.
  induction l as [|pos l IH]; intros acc; cbn [fold_left].
  - destruct acc; simpl. f_equal; lra.
  - rewrite IH. cbv zeta. unfold channel_values, sum.
    cbn [r0 r1 r2 map fold_right]. f_equal; lra.
Qed.

Lemma sum_squares_channels images avg l :
  sum_squares images avg l
  = mkScalarR
      (sum (map (fun x => ((x - r0 avg) ^ 2)%R) (channel_values images ch0 l)))
      (sum (map (fun x => ((x - r1 avg) ^ 2)%R) (channel_values images ch1 l)))
      (sum (map (fun x => ((x - r2 avg) ^ 2)%R) (channel_values images ch2 l))).
Proof.
  unfold sum_squares. rewrite sum_squares_acc. cbn [r0 r1 r2]. f_equal; lra.
Qed.




(** * Further properties *)

(** ** Adjacency test *)

Lemma point_cont_iff p q : point_cont p q = true <-> chebyshev p q < 2.
Proof.
  unfold point_cont, chebyshev.
  destruct (Z.ltb_spec
              (Z.max (Z.max (Z.abs (s0 p - s0 q)) (Z.abs (s1 p - s1 q)))
                     (Z.abs (s2 p - s2 q))) 2); split; intros H';
    try reflexivity; try assumption; try discriminate; lia.
Qed.

(** X1: [point_cont] holds exactly when the largest absolute coordinate
    difference is below 2; it is reflexive and symmetric. *)
Theorem point_cont_adjacency p q :
  (point_cont p q = true <-> chebyshev p q < 2) /\
  point_cont p p = true /\
  point_cont p q = point_cont q p.
Proof.
  split; [apply point_cont_iff|]. split.
  - apply point_cont_iff. unfold chebyshev. lia.
  - destruct (point_cont p q) eqn:E1, (point_cont q p) eqn:E2;
      try reflexivity.
    + apply point_cont_iff in E1. apply not_true_iff_false in E2.
      exfalso. apply E2. apply point_cont_iff. unfold chebyshev in *. lia.
    + apply point_cont_iff in E2. apply not_true_iff_false in E1.
      exfalso. apply E1. apply point_cont_iff. unfold chebyshev in *. lia.
Qed.

(** ** The clipped box and the neighbourhood *)

Lemma for_range_In lo hi v : In v (for_range lo hi) <-> lo <= v <= hi.
Proof.
  unfold for_range. rewrite in_map_iff. split.
  - intros (k & <- & Hk). apply in_seq in Hk. lia.
  - intros H. exists (Z.to_nat (v - lo)). split; [lia|].
    apply in_seq. lia.
Qed.

Lemma bound_scalar_3d_clipped point radius bound a :
  0 <= get a (fst (bound_scalar_3d point radius bound)) /\
  get a (snd (bound_scalar_3d point radius bound)) <= get a bound - 1.
Proof.
  unfold bound_scalar_3d. cbn [fst snd]. rewrite !Z.geb_leb.
  destruct a; cbn [get s0 s1 s2];
    match goal with
    | |- context [?u <? 0] => destruct (Z.ltb_spec u 0)
    end;
    match goal with
    | |- context [?u <=? ?v] => destruct (Z.leb_spec u v)
    end; lia.
Qed.

Lemma bound_scalar_3d_around point radius bound a :
  0 <= get a point <= get a bound - 1 -> 0 <= get a radius ->
  get a (fst (bound_scalar_3d point radius bound)) <= get a point /\
  get a point <= get a (snd (bound_scalar_3d point radius bound)).
Proof.
  intros Hp Hr. unfold bound_scalar_3d. cbn [fst snd]. rewrite !Z.geb_leb.
  destruct a; cbn [get s0 s1 s2] in *;
    match goal with
    | |- context [?u <? 0] => destruct (Z.ltb_spec u 0)
    end;
    match goal with
    | |- context [?u <=? ?v] => destruct (Z.leb_spec u v)
    end; lia.
Qed.

(** X2: the box computed by [bound_scalar_3d] never leaves the canvas, and
    for a point in the canvas and non-negative radii it contains the point
    and reaches no further than the radius on each axis. *)
Theorem bound_scalar_3d_box point radius bound a :
  (0 <= get a (fst (bound_scalar_3d point radius bound)) /\
   get a (snd (bound_scalar_3d point radius bound)) <= get a bound - 1) /\
  (out_of_canvas point bound = false -> 0 <= get a radius ->
   get a point - get a radius
     <= get a (fst (bound_scalar_3d point radius bound)) <= get a point /\
   get a point <= get a (snd (bound_scalar_3d point radius bound))
     <= get a point + get a radius).
Proof.
  split; [apply bound_scalar_3d_clipped|].
  intros Hin Hr. pose proof (in_canvas_get _ _ a Hin) as Hp.
  pose proof (bound_scalar_3d_around point radius bound a Hp Hr) as [H1 H2].
  assert (L : get a point - get a radius
              <= get a (fst (bound_scalar_3d point radius bound))).
  { unfold bound_scalar_3d. cbn [fst]. destruct a; cbn [get s0 s1 s2] in *;
      match goal with
      | |- context [?u <? 0] => destruct (Z.ltb_spec u 0)
      end; lia. }
  assert (U : get a (snd (bound_scalar_3d point radius bound))
              <= get a point + get a radius).
  { unfold bound_scalar_3d. cbn [snd]. rewrite !Z.geb_leb.
    destruct a; cbn [get s0 s1 s2] in *;
      match goal with
      | |- context [?u <=? ?v] => destruct (Z.leb_spec u v)
      end; lia. }
  lia.
Qed.

Lemma bound_scalar_3d_box_witness :
  out_of_canvas (mkScalar 1 2 0) (mkScalar 5 3 1) = false /\
  0 <= get AX (mkScalar 3 3 0) /\
  get AX (snd (bound_scalar_3d (mkScalar 1 2 0) (mkScalar 3 3 0)
                               (mkScalar 5 3 1))) <= 1 + 3.
Proof.
  split; [reflexivity|]. split; [simpl; lia|].
  apply (proj2 (bound_scalar_3d_box (mkScalar 1 2 0) (mkScalar 3 3 0)
                                    (mkScalar 5 3 1) AX));
    [reflexivity | simpl; lia].
Defined.


Lemma in_canvas_of_get bound q :
  (forall a, 0 <= get a q <= get a bound - 1) -> out_of_canvas q bound = false.
Proof.
  intros H. pose proof (H AX) as HX. pose proof (H AY) as HY.
  pose proof (H AZ) as HZ. cbn [get] in HX, HY, HZ.
  unfold out_of_canvas. rewrite !Z.geb_leb.
  destruct (Z.leb_spec 0 (s0 q)); [|lia].
  destruct (Z.leb_spec (s0 q) (s0 bound - 1)); [|lia].
  destruct (Z.leb_spec 0 (s1 q)); [|lia].
  destruct (Z.leb_spec (s1 q) (s1 bound - 1)); [|lia].
  destruct (Z.leb_spec 0 (s2 q)); [|lia].
  destruct (Z.leb_spec (s2 q) (s2 bound - 1)); [|lia].
  reflexivity.
Qed.






(** X4: with the zero radius, at a point in the canvas, the local mean
    colour is exactly the colour of the pixel at the point. *)
Theorem cv_imgs_point_color_loc_pixel images p :
  out_of_canvas p (mkScalar (cols images) (rows images) (size images)) = false ->
  cv_imgs_point_color_loc images p (mkScalar 0 0 0)
  = mkScalarR (IZR (ch0 (pixel_at images p))) (IZR (ch1 (pixel_at images p)))
              (IZR (ch2 (pixel_at images p))).
Proof. apply cv_imgs_point_color_loc_exact. Qed.

Lemma cv_imgs_point_color_loc_pixel_witness :
  out_of_canvas (mkScalar 3 1 0) (mkScalar 5 3 1) = false /\
  cv_imgs_point_color_loc edge_images (mkScalar 3 1 0) (mkScalar 0 0 0)
  = mkScalarR 64 0 0.
Proof.
  split; [reflexivity|].
  apply (cv_imgs_point_color_loc_pixel edge_images (mkScalar 3 1 0)).
  reflexivity.
Defined.

(** ** Local variance and gradient *)

Lemma sum_const c xs :
  Forall (fun x => x = c) xs -> sum xs = (INR (length xs) * c)%R.
Proof.
  induction 1 as [|x xs Hx _ IH].
  - simpl. lra.
  - cbn [sum fold_right length]. fold (sum xs). rewrite IH, S_INR, Hx. lra.
Qed.

Lemma sum_zero xs : Forall (fun x => x = 0%R) xs -> sum xs = 0%R.
Proof. intros H. rewrite (sum_const 0 xs H). lra. Qed.

Lemma cv_imgs_point_var_loc_constant images point radius pixel :
  (2 <= length (local_point_set images point radius))%nat ->
  Forall (fun q => pixel_at images q = pixel)
         (local_point_set images point radius) ->
  cv_imgs_point_var_loc images point radius = 0%R.
Proof.
  intros Hn Hflat. unfold cv_imgs_point_var_loc. cbv zeta.
  set (l := local_point_set images point radius) in *.
  rewrite sum_squares_channels, sum_colors_channels.
  unfold ScalarR_div. cbn [r0 r1 r2].
  assert (Hnz : IZR (Z.of_nat (length l)) <> 0%R).
  { apply not_0_IZR. lia. }
  assert (Hc : forall channel : Vec3b -> Z,
             Forall (fun x => x = IZR (channel pixel))
                    (channel_values images channel l)).
  { intros channel. unfold channel_values. apply Forall_map.
    eapply Forall_impl; [|exact Hflat]. intros q ->. reflexivity. }
  assert (Hm : forall channel : Vec3b -> Z,
             (sum (channel_values images channel l)
              / IZR (Z.of_nat (length l)))%R = IZR (channel pixel)).
  { intros channel. rewrite (sum_const _ _ (Hc channel)).
    unfold channel_values. rewrite length_map, INR_IZR_INZ.
    field. exact Hnz. }
  assert (Hs : forall channel : Vec3b -> Z,
             sum (map (fun x =>
                         ((x - sum (channel_values images channel l)
                               / IZR (Z.of_nat (length l))) ^ 2)%R)
                      (channel_values images channel l)) = 0%R).
  { intros channel. apply sum_zero. apply Forall_map.
    eapply Forall_impl; [|exact (Hc channel)].
    intros x ->. rewrite Hm. ring. }
  rewrite (Hs ch0), (Hs ch1), (Hs ch2).
  unfold Rdiv. rewrite Rmult_0_l, sqrt_0. lra.
Qed.

(** X5: over a neighbourhood of at least 2 points the local variance score
    is not negative, and it is 0 when all the pixels of the neighbourhood
    have the same colour. *)
Theorem cv_imgs_point_var_loc_flat images point radius :
  (2 <= length (local_point_set images point radius))%nat ->
  (0 <= cv_imgs_point_var_loc images point radius)%R /\
  (forall pixel,
     Forall (fun q => pixel_at images q = pixel)
            (local_point_set images point radius) ->
     cv_imgs_point_var_loc images point radius = 0%R).
Proof.
  intros Hn. split.
  - unfold cv_imgs_point_var_loc. cbv zeta.
    repeat apply Rplus_le_le_0_compat; apply sqrt_pos.
  - intros pixel Hflat.
    exact (cv_imgs_point_var_loc_constant images point radius pixel Hn Hflat).
Qed.

Lemma cv_imgs_point_var_loc_flat_witness :
  (2 <= length (local_point_set edge_images (mkScalar 1 1 0) (mkScalar 0 1 0)))%nat /\
  cv_imgs_point_var_loc edge_images (mkScalar 1 1 0) (mkScalar 0 1 0) = 0%R.
Proof.
  assert (E : local_point_set edge_images (mkScalar 1 1 0) (mkScalar 0 1 0)
              = [mkScalar 1 0 0; mkScalar 1 1 0; mkScalar 1 2 0])
    by reflexivity.
  assert (Hn : (2 <= length (local_point_set edge_images (mkScalar 1 1 0)
                                             (mkScalar 0 1 0)))%nat)
    by (rewrite E; simpl; lia).
  split; [exact Hn|].
  apply (proj2 (cv_imgs_point_var_loc_flat edge_images (mkScalar 1 1 0)
                                           (mkScalar 0 1 0) Hn)
               (mkVec3b 0 0 0)).
  rewrite E. repeat constructor.
Defined.

(** ** The ellipsoid test at a lattice point of the ellipsoid *)









(** ** Gradient *)

(** X6: the Scharr gradient is never negative, and it does not change when
    one constant is added to channel 0 of every pixel: it is 0 wherever
    channel 0 is constant. *)
Theorem cv_imgs_point_scharr_shift images images' k point :
  cols images' = cols images ->
  rows images' = rows images ->
  (forall frame row col,
     ch0 (at_ images' frame row col) = ch0 (at_ images frame row col) + k) ->
  (0 <= cv_imgs_point_scharr images point)%R /\
  cv_imgs_point_scharr images' point = cv_imgs_point_scharr images point.
Proof.
  intros Hc Hr Hk. split.
  - unfold cv_imgs_point_scharr.
    destruct ((s0 point <? 1) || (s1 point <? 1)
              || (s0 point >? cols images - 2)
              || (s1 point >? rows images - 2)); [lra | apply sqrt_pos].
  - unfold cv_imgs_point_scharr. rewrite Hc, Hr.
    destruct ((s0 point <? 1) || (s1 point <? 1)
              || (s0 point >? cols images - 2)
              || (s1 point >? rows images - 2)); [reflexivity|].
    cbv zeta. rewrite !Hk, !plus_IZR. f_equal. unfold gx, gy. field.
Qed.

Lemma cv_imgs_point_scharr_shift_witness :
  cv_imgs_point_scharr
    (mkImages 5 3 1 (fun frame row col =>
                       if col =? 3 then mkVec3b (64 + 10) 0 0
                       else mkVec3b (0 + 10) 0 0))
    (mkScalar 2 1 0)
  = cv_imgs_point_scharr edge_images (mkScalar 2 1 0).
Proof.
  apply (cv_imgs_point_scharr_shift edge_images
           (mkImages 5 3 1 (fun frame row col =>
                              if col =? 3 then mkVec3b (64 + 10) 0 0
                              else mkVec3b (0 + 10) 0 0))
           10 (mkScalar 2 1 0)); try reflexivity.
  intros frame row col. simpl. destruct (col =? 3); reflexivity.
Defined.

(** ** Batch statistics *)

Lemma push_each_map {A : Type} (f : Scalar -> A) points :
  push_each f points = map f points.
Proof.
  unfold push_each.
  assert (H : forall acc,
             fold_left (fun re it => re ++ [f it]) points acc
             = acc ++ map f points).
  { induction points as [|p points IH]; intros acc; cbn [fold_left map].
    - rewrite app_nil_r. reflexivity.
    - rewrite IH, <- app_assoc. reflexivity. }
  apply (H []).
Qed.

(** X7: each batch function returns, in the order of the points, the
    result of its scalar function at each point: one result per point. *)
Theorem batch_statistics images points radius :
  cv_imgs_points_color_loc images points radius
  = map (fun p => cv_imgs_point_color_loc images p radius) points /\
  cv_imgs_points_var_loc images points radius
  = map (fun p => cv_imgs_point_var_loc images p radius) points /\
  cv_imgs_points_scharr images points
  = map (fun p => cv_imgs_point_scharr images p) points /\
  length (cv_imgs_points_color_loc images points radius) = length points /\
  length (cv_imgs_points_var_loc images points radius) = length points /\
  length (cv_imgs_points_scharr images points) = length points.
Proof.
  unfold cv_imgs_points_color_loc, cv_imgs_points_var_loc,
    cv_imgs_points_scharr.
  rewrite !push_each_map, !length_map. repeat split.
Qed.

(** ** Variance samplers *)

Lemma var_geq_T_loop_filter images line_points T loc_radius :
  var_geq_T_loop images line_points T loc_radius
  = filter (var_geq images T loc_radius) line_points.
Proof.
  unfold var_geq_T_loop.
  assert (H : forall acc,
             fold_left (fun re pt =>
                          let var := cv_imgs_point_var_loc images pt loc_radius in
                          if Rge_dec var T then re ++ [pt] else re)
                       line_points acc
             = acc ++ filter (var_geq images T loc_radius) line_points).
  { induction line_points as [|p l IH]; intros acc; cbn [fold_left filter].
    - rewrite app_nil_r. reflexivity.
    - rewrite IH. unfold var_geq at 2. cbv zeta.
      destruct (Rge_dec _ T); [rewrite <- app_assoc|]; reflexivity. }
  apply (H []).
Qed.

(** X8: the variance samplers return, in rasterisation order, exactly the
    rasterised points whose local variance reaches the threshold, with no
    anchor point added; on an empty rasterisation (zero direction, equal
    end points) they return the empty sequence. *)
Theorem var_samplers_filter images T loc_radius :
  let bound := mkScalar (cols images) (rows images) (size images) in
  (forall fuel point direction l,
     get_line_points fuel point direction bound = Ret l ->
     cv_line_pts_var_geq_T fuel images point direction T loc_radius
     = Ret (filter (var_geq images T loc_radius) l)) /\
  (forall fuel start end_ l,
     get_line_seg_points fuel start end_ bound = Ret l ->
     cv_line_seg_pts_var_geq_T fuel images start end_ T loc_radius
     = Ret (filter (var_geq images T loc_radius) l)) /\
  (forall fuel point,
     cv_line_pts_var_geq_T fuel images point (mkScalar 0 0 0) T loc_radius
     = Ret []) /\
  (forall fuel point,
     cv_line_seg_pts_var_geq_T fuel images point point T loc_radius = Ret []).
Proof.
  intros bound. repeat apply conj.
  - intros fuel point direction l H.
    unfold cv_line_pts_var_geq_T. fold bound. rewrite H. cbn [bind].
    rewrite var_geq_T_loop_filter. reflexivity.
  - intros fuel start end_ l H.
    unfold cv_line_seg_pts_var_geq_T. fold bound. rewrite H. cbn [bind].
    rewrite var_geq_T_loop_filter. reflexivity.
  - intros fuel point. reflexivity.
  - intros fuel point. unfold cv_line_seg_pts_var_geq_T.
    rewrite get_line_seg_points_unfold, Scalar_eqb_refl. reflexivity.
Qed.

Lemma var_samplers_filter_witness :
  cv_line_seg_pts_var_geq_T 2 edge_images (mkScalar 0 1 0) (mkScalar 2 1 0)
                            0 (mkScalar 0 1 0)
  = Ret (filter (var_geq edge_images 0 (mkScalar 0 1 0))
                [mkScalar 0 1 0; mkScalar 1 1 0; mkScalar 2 1 0]).
Proof.
  apply (proj1 (proj2 (var_samplers_filter edge_images 0 (mkScalar 0 1 0)))
               2%nat (mkScalar 0 1 0) (mkScalar 2 1 0)).
  reflexivity.
Defined.

(** ** The points of a segment, step by step *)

Section Walk.

Variables (d m1 m2 : axis) (d2 : axis -> Z) (inc : Scalar).
Variable keep : Scalar -> bool.

Lemma walk_at_S i : forall w,
  walk_at d m1 m2 d2 inc (S i) w
  = line_step d m1 m2 d2 inc (walk_at d m1 m2 d2 inc i w).
Proof.
  induction i as [|i IH]; intros w; [reflexivity|].
  change (walk_at d m1 m2 d2 inc (S (S i)) w)
    with (walk_at d m1 m2 d2 inc (S i) (line_step d m1 m2 d2 inc w)).
  rewrite IH. reflexivity.
Qed.

(** The loop pushes the points of the walk one after the other, and stops
    either after [n] iterations or at the first point that fails the
    test. *)
Lemma line_loop_walk n : forall w pts w' pts',
  line_loop d m1 m2 d2 inc keep n w pts = (w', pts') ->
  exists j,
    (j <= n)%nat /\
    pts' = pts ++ map (fun i => cur (walk_at d m1 m2 d2 inc i w)) (seq 1 j) /\
    (forall i, (1 <= i <= j)%nat ->
               keep (cur (walk_at d m1 m2 d2 inc i w)) = true) /\
    ((j = n /\ w' = walk_at d m1 m2 d2 inc n w) \/
     ((j < n)%nat /\ w' = walk_at d m1 m2 d2 inc (S j) w /\
      keep (cur w') = false)).
Proof.
  induction n as [|n IH]; intros w pts w' pts'; cbn [line_loop].
  - intros H; inversion H; subst. exists O. cbn [seq map].
    rewrite app_nil_r. repeat split; auto. intros i Hi; lia.
  - destruct (keep (cur (line_step d m1 m2 d2 inc w))) eqn:Hk.
    + intros H. apply IH in H.
      destruct H as (j & Hj & -> & Hall & Hend).
      exists (S j). split; [lia|]. split.
      * rewrite <- app_assoc. f_equal. cbn [seq map app walk_at].
        f_equal. rewrite <- (seq_shift j 1), map_map. reflexivity.
      * split.
        -- intros i Hi. destruct i as [|i]; [lia|]. cbn [walk_at].
           destruct i as [|i]; [exact Hk|]. apply Hall. lia.
        -- destruct Hend as [[-> ->] | (Hlt & -> & Hf)].
           ++ left. split; reflexivity.
           ++ right. split; [lia|]. split; [reflexivity | exact Hf].
    + intros H; inversion H; subst. exists O. cbn [seq map].
      rewrite app_nil_r. split; [lia|]. split; [reflexivity|].
      split; [intros i Hi; lia|]. right. split; [lia|].
      split; [reflexivity | exact Hk].
Qed.

End Walk.

Section WalkExact.

Variables (d m1 m2 : axis) (Adx Ady Adz : Z) (inc start : Scalar).

Local Abbreviation A := (delta_of Adx Ady Adz).
Local Abbreviation d2 := (doubled Adx Ady Adz).

Hypothesis Hroles : roles d m1 m2.
Hypothesis Hm1 : 0 <= A m1 <= A d.
Hypothesis Hm2 : 0 <= A m2 <= A d.
Hypothesis Hd : 1 <= A d.

Lemma walk_at_exact i : forall k w,
  exact_at d m1 m2 Adx Ady Adz inc start k w ->
  exact_at d m1 m2 Adx Ady Adz inc start (k + Z.of_nat i)
           (walk_at d m1 m2 d2 inc i w).
Proof.
  induction i as [|i IH]; intros k w Hk; cbn [walk_at].
  - rewrite Z.add_0_r. exact Hk.
  - replace (k + Z.of_nat (S i)) with (k + 1 + Z.of_nat i) by lia.
    apply IH. apply exact_at_step; assumption.
Qed.

(** Up to the last iteration, each minor axis has taken between 0 and its
    own delta steps. *)
Lemma exact_at_bounds k w :
  0 <= k <= A d ->
  exact_at d m1 m2 Adx Ady Adz inc start k w ->
  exists t1 t2,
    0 <= t1 <= A m1 /\ 0 <= t2 <= A m2 /\
    get d (cur w) = get d start + k * get d inc /\
    get m1 (cur w) = get m1 start + t1 * get m1 inc /\
    get m2 (cur w) = get m2 start + t2 * get m2 inc.
Proof.
  intros Hk (t1 & t2 & Hcd & Hc1 & Hc2 & He1 & Hb1 & He2 & Hb2).
  exists t1, t2.
  assert (0 <= t1) by nia. assert (t1 <= A m1) by nia.
  assert (0 <= t2) by nia. assert (t2 <= A m2) by nia.
  auto 10.
Qed.

End WalkExact.

Lemma seg_delta_facts anchor target :
  Scalar_eqb anchor target = false ->
  let delta := minus target anchor in
  let Adx := Z.abs (s0 delta) in
  let Ady := Z.abs (s1 delta) in
  let Adz := Z.abs (s2 delta) in
  let d := driving Adx Ady Adz in
  0 <= delta_of Adx Ady Adz (minor1 d) <= delta_of Adx Ady Adz d /\
  0 <= delta_of Adx Ady Adz (minor2 d) <= delta_of Adx Ady Adz d /\
  1 <= delta_of Adx Ady Adz d /\
  delta_of Adx Ady Adz d = chebyshev target anchor.
Proof.
  intros Hne delta Adx Ady Adz d.
  pose proof (driving_max Adx Ady Adz) as Hmax. cbv zeta in Hmax.
  fold d in Hmax.
  assert (Hpos : forall a, 0 <= delta_of Adx Ady Adz a).
  { intros a; destruct a; simpl; lia. }
  assert (Hcheb : delta_of Adx Ady Adz d = chebyshev target anchor).
  { unfold chebyshev. subst Adx Ady Adz delta. unfold minus in *.
    cbn [s0 s1 s2] in *. destruct d; cbn [delta_of] in *; lia. }
  repeat split; try apply Hpos; try apply Hmax; try exact Hcheb.
  rewrite Hcheb. unfold chebyshev.
  destruct (Z.eq_dec (s0 target) (s0 anchor)) as [H0|H0];
    [destruct (Z.eq_dec (s1 target) (s1 anchor)) as [H1|H1];
     [destruct (Z.eq_dec (s2 target) (s2 anchor)) as [H2|H2]|]|]; try lia.
  exfalso. apply not_true_iff_false in Hne. apply Hne.
  apply Scalar_eqb_eq. destruct anchor, target; simpl in *; f_equal; lia.
Qed.

Lemma seg_point_exact anchor target i :
  Scalar_eqb anchor target = false ->
  let delta := minus target anchor in
  let Adx := Z.abs (s0 delta) in
  let Ady := Z.abs (s1 delta) in
  let Adz := Z.abs (s2 delta) in
  let d := driving Adx Ady Adz in
  exact_at d (minor1 d) (minor2 d) Adx Ady Adz (signs delta) anchor
           (Z.of_nat i)
           (walk_at d (minor1 d) (minor2 d) (doubled Adx Ady Adz)
                    (signs delta) i (seg_walk0 anchor target)).
Proof.
  intros Hne delta Adx Ady Adz d.
  destruct (seg_delta_facts anchor target Hne) as (H1 & H2 & H3 & _).
  fold delta Adx Ady Adz d in H1, H2, H3.
  pose proof (exact_at_start d (minor1 d) (minor2 d) Adx Ady Adz
                (signs delta) anchor H3) as Hs.
  apply (walk_at_exact d (minor1 d) (minor2 d) Adx Ady Adz (signs delta)
           anchor (roles_driving d) H1 H2 H3 i 0) in Hs.
  rewrite Z.add_0_l in Hs. exact Hs.
Qed.

(** Each point of the walk lies in the box spanned by the two end points,
    [i] increments away from the anchor on the driving axis. *)
Lemma seg_point_coords anchor target i :
  Scalar_eqb anchor target = false ->
  Z.of_nat i <= chebyshev target anchor ->
  let delta := minus target anchor in
  let d := driving (Z.abs (s0 delta)) (Z.abs (s1 delta)) (Z.abs (s2 delta)) in
  in_box anchor target (seg_point anchor target i) /\
  get d (seg_point anchor target i)
  = get d anchor + Z.of_nat i * get d (signs delta) /\
  get d target = get d anchor + chebyshev target anchor * get d (signs delta).
Proof.
  intros Hne Hi delta d.
  destruct (seg_delta_facts anchor target Hne) as (H1 & H2 & H3 & H4).
  pose proof (seg_point_exact anchor target i Hne) as He. cbv zeta in He.
  fold delta in H1, H2, H3, H4, He.
  set (Adx := Z.abs (s0 delta)) in *.
  set (Ady := Z.abs (s1 delta)) in *.
  set (Adz := Z.abs (s2 delta)) in *.
  fold d in H1, H2, H3, H4, He.
  apply exact_at_bounds in He; [|assumption.. | lia].
  destruct He as (t1 & t2 & B1 & B2 & Cd & C1 & C2).
  change (cur (walk_at d (minor1 d) (minor2 d) (doubled Adx Ady Adz)
                       (signs delta) i (seg_walk0 anchor target)))
    with (seg_point anchor target i) in Cd, C1, C2.
  pose proof (signs_delta delta AX) as SX.
  pose proof (signs_delta delta AY) as SY.
  pose proof (signs_delta delta AZ) as SZ.
  pose proof (signs_unit delta AX) as UX.
  pose proof (signs_unit delta AY) as UY.
  pose proof (signs_unit delta AZ) as UZ.
  fold Adx Ady Adz in SX, SY, SZ.
  rewrite <- H4 in *.
  assert (DX : get AX delta = get AX target - get AX anchor) by reflexivity.
  assert (DY : get AY delta = get AY target - get AY anchor) by reflexivity.
  assert (DZ : get AZ delta = get AZ target - get AZ anchor) by reflexivity.
  split; [|split].
  - intros a. unfold between.
    destruct d; cbn [minor1 minor2 delta_of] in *;
      destruct a; destruct UX as [UX|UX], UY as [UY|UY], UZ as [UZ|UZ];
      rewrite ?UX, ?UY, ?UZ in *; subst Adx Ady Adz; cbn [get] in *; lia.
  - exact Cd.
  - destruct d; cbn [delta_of] in *; subst Adx Ady Adz; cbn [get] in *; lia.
Qed.

Lemma seg_blocks_trace anchor target bound re p' re' :
  Scalar_eqb anchor target = false ->
  let delta := minus target anchor in
  line_blocks (Z.abs (s0 delta)) (Z.abs (s1 delta)) (Z.abs (s2 delta))
              (signs delta) (seg_keep target bound) anchor re = (p', re') ->
  exists j,
    Z.of_nat (S j) <= chebyshev target anchor /\
    re' = re ++ map (seg_point anchor target) (seq 1 j) /\
    p' = seg_point anchor target (S j) /\
    seg_keep target bound p' = false /\
    (forall i, (1 <= i <= j)%nat ->
               seg_keep target bound (seg_point anchor target i) = true).
Proof.
  intros Hne delta H.
  pose proof (seg_blocks_stop anchor target bound re p' re' Hne H)
    as [Hstop _].
  destruct (seg_delta_facts anchor target Hne) as (_ & _ & H3 & H4).
  fold delta in H3, H4.
  rewrite line_blocks_driving in H. unfold driven_loop in H.
  destruct (line_loop _ _ _ _ _ _ _ _ _) as [w pts] eqn:E.
  cbn [fst snd] in H. inversion H; subst p' re'; clear H.
  apply line_loop_walk in E.
  destruct E as (j & Hj & -> & Hall & Hend).
  change (fun i => cur (walk_at _ _ _ _ _ i _))
    with (seg_point anchor target) in *.
  destruct Hend as [[-> ->] | (Hlt & -> & _)].
  - exfalso.
    assert (Hn : (1 <= Z.to_nat
                         (delta_of (Z.abs (s0 delta)) (Z.abs (s1 delta))
                            (Z.abs (s2 delta))
                            (driving (Z.abs (s0 delta)) (Z.abs (s1 delta))
                                     (Z.abs (s2 delta)))))%nat) by lia.
    specialize (Hall _ (conj Hn (Nat.le_refl _))).
    exact (eq_true_false_abs _ Hall Hstop).
  - exists j. split; [lia|]. split; [reflexivity|].
    split; [reflexivity|]. split; [exact Hstop | exact Hall].
Qed.

Lemma seg_while_trace fuel anchor target bound re l :
  Scalar_eqb anchor target = false ->
  out_of_canvas anchor bound = false ->
  let delta := minus target anchor in
  seg_while fuel (Z.abs (s0 delta)) (Z.abs (s1 delta)) (Z.abs (s2 delta))
            (signs delta) target bound anchor re = Ret l ->
  exists j,
    Z.of_nat (S j) <= chebyshev target anchor /\
    l = re ++ map (seg_point anchor target) (seq 1 j) /\
    seg_keep target bound (seg_point anchor target (S j)) = false /\
    (forall i, (1 <= i <= j)%nat ->
               seg_keep target bound (seg_point anchor target i) = true).
Proof.
  intros Hne Hin delta.
  destruct fuel as [|fuel]; [discriminate|].
  cbn [seg_while]. rewrite Hne, Hin. cbn [negb andb].
  change (fun q => negb (out_of_canvas q bound) && negb (Scalar_eqb q target))
    with (seg_keep target bound).
  destruct (line_blocks _ _ _ _ _ _ _) as [p' re'] eqn:E.
  apply seg_blocks_trace in E; [|assumption].
  destruct E as (j & Hj & -> & -> & Hstop & Hall).
  destruct fuel as [|fuel]; [discriminate|].
  cbn [seg_while]. unfold seg_keep in Hstop at 1. rewrite Hstop.
  intros H; inversion H; subst. exists j. auto.
Qed.

(** The result of [get_line_seg_points], point by point. *)
Lemma get_line_seg_points_trace fuel start end_ bound l :
  Scalar_eqb start end_ = false ->
  out_of_canvas start bound && out_of_canvas end_ bound = false ->
  get_line_seg_points fuel start end_ bound = Ret l ->
  let anchor := fst (seg_ends start end_ bound) in
  let target := snd (seg_ends start end_ bound) in
  exists j,
    Z.of_nat (S j) <= chebyshev target anchor /\
    l = anchor :: map (seg_point anchor target) (seq 1 j) ++ [target] /\
    seg_keep target bound (seg_point anchor target (S j)) = false /\
    (forall i, (1 <= i <= j)%nat ->
               seg_keep target bound (seg_point anchor target i) = true).
Proof.
  intros Hne Hout. rewrite get_line_seg_points_unfold, Hne, Hout.
  pose proof (seg_ends_anchor _ _ _ Hout) as Hin.
  pose proof (seg_ends_distinct _ _ bound Hne) as Hd.
  destruct (seg_ends start end_ bound) as [anchor target].
  cbn [fst snd] in *. cbv zeta.
  destruct (seg_while _ _ _ _ _ _ _ _ _) as [re0| | |] eqn:E;
    cbn [bind]; try discriminate.
  apply seg_while_trace in E; try assumption.
  destruct E as (j & Hj & -> & Hstop & Hall).
  intros H; inversion H; subst. exists j. auto.
Qed.

Lemma in_box_sym p1 p2 q : in_box p1 p2 q -> in_box p2 p1 q.
Proof. unfold in_box, between. intros H a. specialize (H a). lia. Qed.

Lemma in_box_left p1 p2 : in_box p1 p2 p1.
Proof. unfold in_box, between. intros a. lia. Qed.

Lemma get_line_seg_points_in_box fuel start end_ bound l :
  get_line_seg_points fuel start end_ bound = Ret l ->
  Forall (in_box start end_) l.
Proof.
  intros H. pose proof H as H'. apply get_line_seg_points_shape in H'.
  destruct H' as [[-> _] | (Hne & Hout & _)]; [constructor|].
  apply (get_line_seg_points_trace _ _ _ _ _ Hne Hout) in H.
  cbv zeta in H. destruct H as (j & Hj & -> & _ & _).
  pose proof (seg_ends_distinct _ _ bound Hne) as Hd.
  assert (Hbox : forall q,
             in_box (fst (seg_ends start end_ bound))
                    (snd (seg_ends start end_ bound)) q ->
             in_box start end_ q).
  { unfold seg_ends.
    destruct (out_of_canvas start bound && negb (out_of_canvas end_ bound));
      cbn [fst snd]; intros q Hq; [apply in_box_sym|]; assumption. }
  constructor; [apply Hbox, in_box_left|].
  apply Forall_app. split.
  - apply Forall_map. apply Forall_forall. intros i Hi. apply in_seq in Hi.
    apply Hbox. apply seg_point_coords; [assumption | lia].
  - constructor; [|constructor]. apply Hbox, in_box_sym, in_box_left.
Qed.

(** X9: every point returned by [get_line_seg_points] lies in the box
    spanned by [start] and [end]: each of its coordinates is between the
    coordinates of the two end points. *)
Theorem get_line_seg_points_box start end_ bound :
  (exists l, get_line_seg_points 2 start end_ bound = Ret l) /\
  forall fuel l q,
    get_line_seg_points fuel start end_ bound = Ret l -> In q l ->
    Z.min (s0 start) (s0 end_) <= s0 q <= Z.max (s0 start) (s0 end_) /\
    Z.min (s1 start) (s1 end_) <= s1 q <= Z.max (s1 start) (s1 end_) /\
    Z.min (s2 start) (s2 end_) <= s2 q <= Z.max (s2 start) (s2 end_).
Proof.
  split; [apply get_line_seg_points_total|].
  intros fuel l q H Hq. apply get_line_seg_points_in_box in H.
  rewrite Forall_forall in H. specialize (H q Hq).
  pose proof (H AX) as HX. pose proof (H AY) as HY. pose proof (H AZ) as HZ.
  unfold between in *. cbn [get] in *. auto.
Qed.

Lemma get_line_seg_points_box_witness :
  Z.min (s1 (mkScalar 0 0 0)) (s1 (mkScalar 7 3 2)) <= s1 (mkScalar 4 2 1)
    <= Z.max (s1 (mkScalar 0 0 0)) (s1 (mkScalar 7 3 2)).
Proof.
  apply (proj2 (get_line_seg_points_box (mkScalar 0 0 0) (mkScalar 7 3 2)
                                        (mkScalar 10 10 10))
               2%nat
               [mkScalar 0 0 0; mkScalar 1 0 0; mkScalar 2 1 1; mkScalar 3 1 1;
                mkScalar 4 2 1; mkScalar 5 2 1; mkScalar 6 3 2; mkScalar 7 3 2]
               (mkScalar 4 2 1) eq_refl).
  simpl. auto 10.
Defined.

(** ** Adjacency of consecutive rasterised points *)

Lemma follows_point_cont inc d p q :
  (forall a, get a inc = 1 \/ get a inc = -1) ->
  follows inc d p q -> point_cont p q = true.
Proof.
  intros Hu [_ Ha]. apply point_cont_iff. unfold chebyshev.
  pose proof (Ha AX) as HX. pose proof (Ha AY) as HY. pose proof (Ha AZ) as HZ.
  pose proof (Hu AX) as UX. pose proof (Hu AY) as UY. pose proof (Hu AZ) as UZ.
  cbn [get] in *. lia.
Qed.

Lemma chain_map_seq (R : Scalar -> Scalar -> Prop) (f : nat -> Scalar) n :
  forall s,
    (forall i, (s <= i < s + n)%nat -> R (f i) (f (S i))) ->
    chain R (f s) (map f (seq (S s) n)).
Proof.
  induction n as [|n IH]; intros s H; cbn [seq map chain]; [trivial|].
  split; [apply H; lia|]. apply IH. intros i Hi. apply H. lia.
Qed.

Lemma get_line_points_ordered fuel point direction bound l :
  nonzero direction ->
  get_line_points fuel point direction bound = Ret l ->
  ordered (follows (signs direction) (driving_of direction)) l.
Proof.
  intros Hnz H.
  destruct (get_line_points_shape _ _ _ _ _ Hnz H)
    as (neg & pos & Hneg & Hpos & ->).
  apply bresenham_spec in Hneg. apply bresenham_spec in Hpos.
  destruct Hneg as (neg' & Eneg & _ & Cneg).
  destruct Hpos as (pos' & Epos & _ & Cpos).
  simpl in Eneg, Epos. subst neg' pos'.
  apply ordered_snoc_chain; [|assumption].
  apply (chain_impl _ _ _ _ (follows_opposite _ _)) in Cneg.
  apply chain_rev_ordered in Cneg.
  eapply ordered_impl; [|exact Cneg]. auto.
Qed.

Lemma chain_follows_fresh inc d p l :
  get d inc = 1 \/ get d inc = -1 ->
  chain (follows inc d) p l ->
  Forall (fun q => 1 <= (get d q - get d p) * get d inc) l /\ NoDup l.
Proof.
  intros Hu. revert p. induction l as [|q l IH]; intros p; cbn [chain].
  - intros _. split; constructor.
  - intros [[Hd _] Hc]. destruct (IH q Hc) as [Hall Hnd].
    assert (Hall' : Forall (fun r => 1 <= (get d r - get d p) * get d inc) l).
    { eapply Forall_impl; [|exact Hall]. cbv beta. intros r Hr.
      destruct Hu as [U | U]; rewrite U in *; lia. }
    split.
    + constructor; [|exact Hall'].
      destruct Hu as [U | U]; rewrite U in *; lia.
    + constructor; [|exact Hnd]. intros Hin.
      rewrite Forall_forall in Hall. specialize (Hall q Hin). cbv beta in Hall.
      lia.
Qed.

(** X10: for a nonzero direction, every two consecutive points returned by
    [get_line_points] are adjacent for [point_cont] (no coordinate differs
    by more than 1), and no point is returned twice. *)
Theorem get_line_points_adjacent point direction bound :
  nonzero direction ->
  (exists fuel l, get_line_points fuel point direction bound = Ret l) /\
  forall fuel l,
    get_line_points fuel point direction bound = Ret l ->
    ordered (fun p q => point_cont p q = true) l /\ NoDup l.
Proof.
  intros Hnz. split.
  - destruct (get_line_points_total point direction bound Hnz) as [n Hn].
    exists n. apply Hn. lia.
  - intros fuel l H.
    pose proof (get_line_points_ordered _ _ _ _ _ Hnz H) as Ho. split.
    + eapply ordered_impl; [|exact Ho]. intros p q.
      apply follows_point_cont. apply signs_unit.
    + destruct l as [|p l]; [constructor|]. cbn [ordered] in Ho.
      destruct (chain_follows_fresh _ _ _ _
                  (signs_unit direction (driving_of direction)) Ho)
        as [Hall Hnd].
      constructor; [|exact Hnd]. intros Hin.
      rewrite Forall_forall in Hall. specialize (Hall p Hin). cbv beta in Hall.
      lia.
Qed.

Lemma get_line_points_adjacent_witness :
  nonzero (mkScalar 2 (-1) 0) /\
  NoDup [mkScalar 0 2 0; mkScalar 1 1 0; mkScalar 2 1 0; mkScalar 3 1 0;
         mkScalar 4 0 0; mkScalar 5 0 0].
Proof.
  split; [reflexivity|].
  apply (proj2 (get_line_points_adjacent (mkScalar 2 1 0) (mkScalar 2 (-1) 0)
                                         (mkScalar 9 5 1) eq_refl)
               20%nat _ eq_refl).
Defined.

(** ** A segment between two points of the canvas *)

Lemma chebyshev_sym p q : chebyshev p q = chebyshev q p.
Proof. unfold chebyshev. lia. Qed.

Lemma in_box_canvas bound p1 p2 q :
  out_of_canvas p1 bound = false -> out_of_canvas p2 bound = false ->
  in_box p1 p2 q -> out_of_canvas q bound = false.
Proof.
  intros H1 H2 Hq. apply in_canvas_of_get. intros a.
  pose proof (in_canvas_get _ _ a H1). pose proof (in_canvas_get _ _ a H2).
  specialize (Hq a). unfold between in Hq. lia.
Qed.

Lemma seg_point_adjacent anchor target i :
  point_cont (seg_point anchor target i) (seg_point anchor target (S i)) = true.
Proof.
  unfold seg_point. cbv zeta. rewrite walk_at_S.
  eapply follows_point_cont; [apply signs_unit|].
  apply line_step_follows. apply roles_driving.
Qed.

Lemma map_seq_ends {A : Type} (f : nat -> A) j :
  f O :: map f (seq 1 j) ++ [f (S j)] = map f (seq 0 (S (S j))).
Proof.
  change (seq 0 (S (S j))) with (0%nat :: seq 1 (S j)).
  rewrite seq_S, map_cons, map_app. reflexivity.
Qed.

(** X11: between two distinct points of the canvas, [get_line_seg_points]
    returns a sequence that starts at [start], ends at [end], has one point
    more than the largest absolute coordinate difference of the two points,
    stays in the canvas, and whose consecutive points are adjacent for
    [point_cont]. *)
Theorem get_line_seg_points_inside start end_ bound :
  start <> end_ ->
  out_of_canvas start bound = false ->
  out_of_canvas end_ bound = false ->
  (exists l, get_line_seg_points 2 start end_ bound = Ret l) /\
  forall fuel l,
    get_line_seg_points fuel start end_ bound = Ret l ->
    hd_error l = Some start /\
    last l start = end_ /\
    length l = S (Z.to_nat (chebyshev start end_)) /\
    Forall (fun q => out_of_canvas q bound = false) l /\
    ordered (fun p q => point_cont p q = true) l.
Proof.
  intros Hneq Hs He. split; [apply get_line_seg_points_total|].
  intros fuel l H.
  assert (Hne : Scalar_eqb start end_ = false).
  { apply not_true_iff_false. intros E. apply Scalar_eqb_eq in E. tauto. }
  assert (Hout : out_of_canvas start bound && out_of_canvas end_ bound = false)
    by (rewrite Hs; reflexivity).
  pose proof (get_line_seg_points_in_box _ _ _ _ _ H) as Hbox.
  apply (get_line_seg_points_trace _ _ _ _ _ Hne Hout) in H.
  unfold seg_ends in H. rewrite Hs in H. cbn [andb fst snd] in H.
  cbv zeta in H. destruct H as (j & Hj & -> & Hstop & Hall).
  destruct (seg_point_coords start end_ (S j) Hne Hj) as (Bj & Dj & Dt).
  assert (Hlast : seg_point start end_ (S j) = end_).
  { unfold seg_keep in Hstop.
    rewrite (in_box_canvas bound start end_ _ Hs He Bj) in Hstop.
    cbn [negb andb] in Hstop. apply negb_false_iff in Hstop.
    apply Scalar_eqb_eq. exact Hstop. }
  assert (Hlen : Z.of_nat (S j) = chebyshev end_ start).
  { rewrite Hlast in Dj.
    pose proof (signs_unit (minus end_ start)
                  (driving (Z.abs (s0 (minus end_ start)))
                           (Z.abs (s1 (minus end_ start)))
                           (Z.abs (s2 (minus end_ start))))) as U.
    cbv zeta in Dj, Dt. destruct U as [U | U]; rewrite U in *; lia. }
  split; [reflexivity|]. split.
  - change (start :: map (seg_point start end_) (seq 1 j) ++ [end_])
      with ((start :: map (seg_point start end_) (seq 1 j)) ++ [end_]).
    apply last_last.
  - split.
    + cbn [length]. rewrite length_app, length_map, length_seq.
      rewrite chebyshev_sym, <- Hlen. cbn [length]. lia.
    + split.
      * eapply Forall_impl; [|exact Hbox]. intros q.
        apply in_box_canvas; assumption.
      * rewrite <- Hlast at 2.
        change start with (seg_point start end_ 0) at 1.
        rewrite map_seq_ends. cbn [seq map ordered].
        change (seg_point start end_ 1 :: map (seg_point start end_) (seq 2 j))
          with (map (seg_point start end_) (seq 1 (S j))).
        apply chain_map_seq. intros i _. apply seg_point_adjacent.
Qed.

Lemma get_line_seg_points_inside_witness :
  mkScalar 0 0 0 <> mkScalar 7 3 2 /\
  out_of_canvas (mkScalar 0 0 0) (mkScalar 10 10 10) = false /\
  out_of_canvas (mkScalar 7 3 2) (mkScalar 10 10 10) = false /\
  length [mkScalar 0 0 0; mkScalar 1 0 0; mkScalar 2 1 1; mkScalar 3 1 1;
          mkScalar 4 2 1; mkScalar 5 2 1; mkScalar 6 3 2; mkScalar 7 3 2]
  = S (Z.to_nat (chebyshev (mkScalar 0 0 0) (mkScalar 7 3 2))).
Proof.
  assert (Hne : mkScalar 0 0 0 <> mkScalar 7 3 2) by discriminate.
  split; [exact Hne|]. split; [reflexivity|]. split; [reflexivity|].
  apply (proj2 (get_line_seg_points_inside (mkScalar 0 0 0) (mkScalar 7 3 2)
                  (mkScalar 10 10 10) Hne eq_refl eq_refl) 2%nat _ eq_refl).
Defined.

(** ** Points of an ellipse *)

Lemma poly_segments_frame
    (ellipse2Poly : Z * Z -> Z * Z -> Z -> Z -> Z -> Z -> list (Z * Z))
    fuel frame bound : forall v p0 re l,
  Forall (fun q => s2 q = frame) re ->
  poly_segments fuel frame bound p0 v re = Ret l ->
  Forall (fun q => s2 q = frame) l.
Proof.
  induction v as [|p v IH]; intros p0 re l Hre; cbn [poly_segments].
  - intros H; inversion H; subst. exact Hre.
  - destruct (get_line_seg_points fuel _ _ bound) as [temp| | |] eqn:E;
      cbn [bind]; try discriminate.
    apply IH. unfold vector_append. apply Forall_app. split; [exact Hre|].
    apply get_line_seg_points_in_box in E.
    eapply Forall_impl; [|exact E]. intros q Hq. specialize (Hq AZ).
    unfold between in Hq. cbn [get s2] in Hq. lia.
Qed.

(** X12: [get_ellipse_points] returns (two units of fuel per segment are
    enough), and every returned point has the frame index of the centre. *)
Theorem get_ellipse_points_frame
    (ellipse2Poly : Z * Z -> Z * Z -> Z -> Z -> Z -> Z -> list (Z * Z))
    centre param bound :
  (exists l, get_ellipse_points ellipse2Poly 2 centre param bound = Ret l) /\
  forall fuel l,
    get_ellipse_points ellipse2Poly fuel centre param bound = Ret l ->
    Forall (fun q => s2 q = s2 centre) l.
Proof.
  split; [apply get_ellipse_points_total|].
  intros fuel l. unfold get_ellipse_points.
  destruct (ellipse_vertices ellipse2Poly centre param) as [|p0 v].
  - intros H; inversion H. constructor.
  - apply (poly_segments_frame ellipse2Poly). constructor.
Qed.

Lemma get_ellipse_points_frame_witness :
  Forall (fun q => s2 q = s2 (mkScalar 2 2 4))
         [mkScalar 1 1 4; mkScalar 2 1 4; mkScalar 3 1 4; mkScalar 3 1 4;
          mkScalar 3 2 4; mkScalar 3 3 4].
Proof.
  apply (proj2 (get_ellipse_points_frame
                  (fun _ _ _ _ _ _ => [(1, 1); (3, 1); (3, 3)])
                  (mkScalar 2 2 4) (mkScalar 1 1 0) (mkScalar 5 5 5))
               2%nat).
  reflexivity.
Defined.

(** ** What the thinning returns *)

(** What the thinning loop keeps true: the points pushed after the first
    one, and the point [tmp_max] of an open run, are rasterised points whose
    gradient reaches the threshold. *)
Lemma thin_loop_sound images T line_points first : forall l st,
  (forall q, In q l -> In q line_points) ->
  (exists mid,
     re st = first :: mid /\
     Forall (fun q => In q line_points /\
                      (cv_imgs_point_scharr images q >= T)%R) mid) ->
  (cont st = true ->
   In (tmp_max st) line_points /\
   (cv_imgs_point_scharr images (tmp_max st) >= T)%R) ->
  exists mid,
    re (fold_left (thin_step images T) l st) = first :: mid /\
    Forall (fun q => In q line_points /\
                     (cv_imgs_point_scharr images q >= T)%R) mid.
Proof.
  induction l as [|pt l IH]; intros st Hl Hre Hmax; cbn [fold_left].
  - exact Hre.
  - assert (Hpt : In pt line_points) by (apply Hl; left; reflexivity).
    assert (Hl' : forall q, In q l -> In q line_points)
      by (intros q Hq; apply Hl; right; exact Hq).
    apply IH; [exact Hl' | |]; unfold thin_step;
      destruct (Rge_dec (cv_imgs_point_scharr images pt) T) as [Hge|];
      try assumption;
      destruct (cont st) eqn:Hc; cbn [negb];
      try (cbn [re cont tmp_max]; auto; fail);
      (destruct (point_cont (tmp_last st) pt);
       [destruct (Rge_dec (cv_imgs_point_scharr images pt) (tmp_g st));
        cbn [re cont tmp_max]; auto |]).
    + cbn [re]. destruct Hre as (mid & -> & Hmid).
      exists (mid ++ [tmp_max st]). split; [reflexivity|].
      apply Forall_app. split; [exact Hmid|].
      constructor; [apply Hmax; reflexivity | constructor].
    + cbn [cont]. discriminate.
Qed.

(** X13: on a non-empty rasterisation the thinning returns the first
    point, then only rasterised points whose gradient reaches the
    threshold, then the last point. *)
Theorem thin_points_sound images first rest T :
  exists mid,
    thin_points images (first :: rest) T
    = Ret (first :: mid ++ [last (first :: rest) first]) /\
    Forall (fun q => In q (first :: rest) /\
                     (cv_imgs_point_scharr images q >= T)%R) mid.
Proof.
  unfold thin_points.
  destruct (thin_loop_sound images T (first :: rest) first (first :: rest)
              (mkThin [first] (mkScalar 0 0 0) (mkScalar 0 0 0) 0%R false))
    as (mid & Hre & Hmid).
  - auto.
  - exists []. split; [reflexivity | constructor].
  - cbn [cont]. discriminate.
  - exists mid. rewrite Hre. split; [reflexivity | exact Hmid].
Qed.

(** ** Histograms *)

Lemma fold_add_ext (g h : Z -> Z) l : forall a,
  (forall b, In b l -> g b = h b) ->
  fold_left (fun acc b => acc + g b) l a
  = fold_left (fun acc b => acc + h b) l a.
Proof.
  induction l as [|x l IH]; intros a H; cbn [fold_left]; [reflexivity|].
  rewrite (H x (or_introl eq_refl)). apply IH.
  intros b Hb. apply H. right. exact Hb.
Qed.

Lemma fold_add_shift (g : Z -> Z) l : forall a c,
  fold_left (fun acc b => acc + g b) l (a + c)
  = fold_left (fun acc b => acc + g b) l a + c.
Proof.
  induction l as [|x l IH]; intros a c; cbn [fold_left]; [reflexivity|].
  replace (a + c + g x) with (a + g x + c) by lia. apply IH.
Qed.

(** Adding 1 to the entry [f] of a row adds 1 to the sum over a list of
    bins in which [f] occurs once. *)
Lemma fold_add_update (g : Z -> Z) f l : forall a,
  NoDup l -> In f l ->
  fold_left (fun acc b => acc + (if b =? f then g b + 1 else g b)) l a
  = fold_left (fun acc b => acc + g b) l a + 1.
Proof.
  induction l as [|x l IH]; intros a Hnd Hin; [destruct Hin|].
  inversion Hnd as [|? ? Hx Hnd']; subst. cbn [fold_left].
  destruct (Z.eqb_spec x f) as [-> | Hne].
  - replace (a + (g f + 1)) with (a + g f + 1) by lia.
    rewrite (fold_add_ext (fun b => if b =? f then g b + 1 else g b) g).
    + apply fold_add_shift.
    + intros b Hb. destruct (Z.eqb_spec b f); [subst; contradiction|].
      reflexivity.
  - apply IH; [exact Hnd'|]. destruct Hin; [contradiction | assumption].
Qed.

Lemma for_range_NoDup lo hi : NoDup (for_range lo hi).
Proof.
  unfold for_range. apply Injective_map_NoDup; [|apply seq_NoDup].
  intros x y H. lia.
Qed.

Lemma row_sum_incr freq channel f freq' ch :
  freq_incr freq channel f = Ret freq' ->
  row_sum freq' ch = row_sum freq ch + (if ch =? channel then 1 else 0).
Proof.
  unfold freq_incr.
  destruct (Z.leb_spec 0 f) as [Hlo|]; [|discriminate].
  destruct (Z.ltb_spec f 32) as [Hhi|]; [|discriminate].
  cbn [andb]. intros E; inversion E; subst freq'; clear E.
  unfold row_sum. destruct (ch =? channel); cbn [andb].
  - apply (fold_add_update (freq ch) f (for_range 0 31) 0).
    + apply for_range_NoDup.
    + apply for_range_In. lia.
  - rewrite Z.add_0_r. reflexivity.
Qed.

Lemma freq_incr_nonneg freq channel f freq' :
  (forall ch b, 0 <= freq ch b) ->
  freq_incr freq channel f = Ret freq' ->
  forall ch b, 0 <= freq' ch b.
Proof.
  intros Hpos. unfold freq_incr.
  destruct ((0 <=? f) && (f <? 32)); [|discriminate].
  intros H; inversion H; subst. intros ch b.
  specialize (Hpos ch b). destruct ((ch =? channel) && (b =? f)); lia.
Qed.

Lemma count_color_counts freq lab freq' :
  (forall ch b, 0 <= freq ch b) ->
  count_color freq lab = Ret freq' ->
  (forall ch b, 0 <= freq' ch b) /\
  row_sum freq' 0 = row_sum freq 0 + 1 /\
  row_sum freq' 1 = row_sum freq 1 + 1 /\
  row_sum freq' 2 = row_sum freq 2 + 1.
Proof.
  intros Hpos. unfold count_color.
  destruct (freq_incr freq 0 _) as [f0| | |] eqn:E0; cbn [bind];
    try discriminate.
  destruct (freq_incr f0 1 _) as [f1| | |] eqn:E1; cbn [bind];
    try discriminate.
  intros E2.
  pose proof (freq_incr_nonneg _ _ _ _ Hpos E0) as P0.
  pose proof (freq_incr_nonneg _ _ _ _ P0 E1) as P1.
  pose proof (freq_incr_nonneg _ _ _ _ P1 E2) as P2.
  split; [exact P2|].
  rewrite !(row_sum_incr _ _ _ _ _ E2), !(row_sum_incr _ _ _ _ _ E1),
    !(row_sum_incr _ _ _ _ _ E0).
  cbn [Z.eqb Pos.eqb]. lia.
Qed.

Lemma count_colors_counts colors : forall freq freq',
  (forall ch b, 0 <= freq ch b) ->
  count_colors colors freq = Ret freq' ->
  (forall ch b, 0 <= freq' ch b) /\
  row_sum freq' 0 = row_sum freq 0 + Z.of_nat (length colors) /\
  row_sum freq' 1 = row_sum freq 1 + Z.of_nat (length colors) /\
  row_sum freq' 2 = row_sum freq 2 + Z.of_nat (length colors).
Proof.
  induction colors as [|lab colors IH]; intros freq freq' Hpos;
    cbn [count_colors].
  - intros H; inversion H; subst. cbn [length]. repeat split; try lia.
    exact Hpos.
  - destruct (count_color freq lab) as [f1| | |] eqn:E; cbn [bind];
      try discriminate.
    intros H. apply count_color_counts in E; [|exact Hpos].
    destruct E as (P1 & R0 & R1 & R2).
    apply IH in H; [|exact P1]. destruct H as (P & S0 & S1 & S2).
    split; [exact P|]. cbn [length]. lia.
Qed.

(** X15: counting the colours of [n] points from the zero matrix, when it
    succeeds, leaves non-negative counts whose sum over the 32 bins of each
    of the three channels is [n]: every colour falls into exactly one bin
    per channel. *)
Theorem count_colors_total colors freq :
  count_colors colors (fun _ _ => 0) = Ret freq ->
  (forall ch b, 0 <= freq ch b) /\
  row_sum freq 0 = Z.of_nat (length colors) /\
  row_sum freq 1 = Z.of_nat (length colors) /\
  row_sum freq 2 = Z.of_nat (length colors).
Proof.
  intros H. apply count_colors_counts in H; [|intros; lia].
  assert (Z0 : forall ch, row_sum (fun _ _ => 0) ch = 0) by reflexivity.
  rewrite !Z0 in H. exact H.
Qed.

Lemma count_colors_total_witness :
  exists freq,
    count_colors [mkScalarR 64 0 0] (fun _ _ => 0) = Ret freq /\
    row_sum freq 0 = Z.of_nat (length [mkScalarR 64 0 0]).
Proof.
  assert (B8 : double_to_int (64 / 8) = 8).
  { unfold double_to_int. destruct (Rle_dec 0 (64 / 8)); [|exfalso; lra].
    replace (64 / 8)%R with (IZR 8) by lra.
    symmetry. apply Int_part_spec. lra. }
  assert (B0 : double_to_int (0 / 8) = 0).
  { unfold double_to_int. destruct (Rle_dec 0 (0 / 8)); [|exfalso; lra].
    replace (0 / 8)%R with (IZR 0) by lra.
    symmetry. apply Int_part_spec. lra. }
  destruct (count_colors_cases [mkScalarR 64 0 0] (fun _ _ => 0))
    as [[freq E] | E].
  - exists freq. split; [exact E|].
    exact (proj1 (proj2 (count_colors_total [mkScalarR 64 0 0] freq E))).
  - exfalso. cbn [count_colors] in E. unfold count_color in E.
    cbn [r0 r1 r2] in E. rewrite B8, B0 in E. vm_compute in E.
    discriminate E.
Defined.

Lemma fold_add_IZR (g : Z -> Z) l : forall a,
  IZR (fold_left (fun acc b => acc + g b) l a)
  = (IZR a + sum (map (fun b => IZR (g b)) l))%R.
Proof.
  induction l as [|x l IH]; intros a; cbn [fold_left map sum fold_right].
  - lra.
  - rewrite IH, plus_IZR. fold (sum (map (fun b => IZR (g b)) l)). lra.
Qed.

Lemma sum_nonneg xs : Forall (fun x => (0 <= x)%R) xs -> (0 <= sum xs)%R.
Proof.
  induction 1 as [|x xs Hx _ IH]; cbn [sum fold_right]; [lra|].
  fold (sum xs). lra.
Qed.

Lemma sum_smoothed (g : Z -> Z) (e D : R) l :
  sum (map (fun b => ((IZR (g b) + e) / D)%R) l)
  = ((sum (map (fun b => IZR (g b)) l) + INR (length l) * e) / D)%R.
Proof.
  induction l as [|x l IH].
  - simpl. unfold Rdiv. lra.
  - cbn [map sum fold_right length].
    fold (sum (map (fun b => ((IZR (g b) + e) / D)%R) l)).
    fold (sum (map (fun b => IZR (g b)) l)).
    rewrite IH, S_INR. unfold Rdiv. lra.
Qed.

Lemma row_sum_IZR freq ch :
  IZR (row_sum freq ch) = sum (map (fun b => IZR (freq ch b)) (for_range 0 31)).
Proof. unfold row_sum. rewrite fold_add_IZR. lra. Qed.

Lemma row_sum_nonneg freq ch :
  (forall b, 0 <= freq ch b) -> (0 <= IZR (row_sum freq ch))%R.
Proof.
  intros H. rewrite row_sum_IZR. apply sum_nonneg. apply Forall_map.
  apply Forall_forall. intros b _. apply IZR_le. apply H.
Qed.

Lemma hist_pos freq ch f :
  (forall b, 0 <= freq ch b) -> (0 < hist freq ch f)%R.
Proof.
  intros H. unfold hist. pose proof (row_sum_nonneg freq ch H) as Hr.
  pose proof (IZR_le _ _ (H f)) as Hf.
  apply Rdiv_lt_0_compat; lra.
Qed.

(** X16: with non-negative counts, the 32 smoothed entries of a histogram
    row sum to 1: the smoothing constants 0.0001 per bin and 0.0032 per row
    make each row a probability distribution with no zero entry. *)
Theorem hist_row_distribution freq ch :
  (forall b, 0 <= freq ch b) ->
  sum (map (hist freq ch) (for_range 0 31)) = 1%R /\
  (forall f, 0 < hist freq ch f)%R.
Proof.
  intros H. split; [|intros f; apply hist_pos; exact H].
  unfold hist.
  rewrite (sum_smoothed (freq ch) 0.0001 (IZR (row_sum freq ch) + 0.0032)).
  rewrite <- (row_sum_IZR freq ch).
  change (length (for_range 0 31)) with 32%nat.
  pose proof (row_sum_nonneg freq ch H) as Hr.
  replace (INR 32) with 32%R by (simpl; lra).
  generalize dependent (IZR (row_sum freq ch)). intros r Hr.
  replace (r + 32 * 0.0001)%R with (r + 0.0032)%R by lra.
  unfold Rdiv. apply Rinv_r. lra.
Qed.

Lemma hist_row_distribution_witness :
  (forall b, 0 <= (fun _ _ : Z => 0) 0 b) /\
  sum (map (hist (fun _ _ => 0) 0) (for_range 0 31)) = 1%R.
Proof.
  assert (H : forall b, 0 <= (fun _ _ : Z => 0) 0 b) by (intros; lia).
  split; [exact H|].
  exact (proj1 (hist_row_distribution (fun _ _ => 0) 0 H)).
Defined.

Lemma kl_sum_same h ch :
  (forall f, h ch f <> 0%R) -> kl_sum h h ch = 0%R.
Proof.
  intros H. unfold kl_sum.
  assert (G : forall l a,
             fold_left (fun D f => (D + h ch f * log2 (h ch f / h ch f))%R) l a
             = a).
  { induction l as [|f l IH]; intros a; cbn [fold_left]; [reflexivity|].
    rewrite IH. unfold log2, Rdiv at 2. rewrite Rinv_r by apply H.
    rewrite ln_1. unfold Rdiv. lra. }
  apply G.
Qed.

(** X17: compared with itself, a point set has divergence exactly 0
    whenever [compare_hist] returns. *)
Theorem compare_hist_same images points kl :
  compare_hist images points points = Ret kl -> kl = 0%R.
Proof.
  unfold compare_hist.
  destruct (count_colors _ _) as [freq| | |] eqn:E; cbn [bind];
    try discriminate.
  intros H; inversion H; subst kl; clear H.
  apply count_colors_counts in E; [|intros; lia]. destruct E as [P _].
  assert (K : forall ch, kl_sum (hist freq) (hist freq) ch = 0%R).
  { intros ch. apply kl_sum_same. intros f.
    pose proof (hist_pos freq ch f (P ch)). lra. }
  rewrite !K.
  replace ((0 + 0) / 2)%R with 0%R by lra.
  replace ((0 * 0 + 0 * 0 + 0 * 0) / 3)%R with 0%R by lra.
  apply sqrt_0.
Qed.

Lemma compare_hist_same_witness :
  exists kl,
    compare_hist edge_images [mkScalar 3 1 0] [mkScalar 3 1 0] = Ret kl /\
    kl = 0%R.
Proof.
  destruct (compare_hist_returns edge_images [mkScalar 3 1 0] [mkScalar 3 1 0])
    as [kl E].
  - repeat constructor; simpl; lia.
  - exists kl. split; [exact E|].
    exact (compare_hist_same edge_images [mkScalar 3 1 0] kl E).
Defined.

(** X18: [compare_hist] returns a value (no colour falls outside the 32
    bins) when every point of both sets is in the canvas and every channel
    of its pixel is an 8-bit value. *)
Theorem compare_hist_defined images points_1 points_2 :
  Forall (fun p =>
            out_of_canvas p (mkScalar (cols images) (rows images) (size images))
            = false /\ byte_pixel (pixel_at images p)) (points_1 ++ points_2) ->
  exists kl, compare_hist images points_1 points_2 = Ret kl.
Proof. apply compare_hist_returns. Qed.

Lemma compare_hist_defined_witness :
  exists kl,
    compare_hist edge_images [mkScalar 2 1 0] [mkScalar 3 1 0] = Ret kl.
Proof.
  apply (compare_hist_defined edge_images [mkScalar 2 1 0] [mkScalar 3 1 0]).
  repeat constructor; simpl; lia.
Defined.

(** ** Range of the local mean colour *)





(** ** Reversing the direction of a line *)

Lemma line_step_agree d m1 m2 d2 inc inc' w :
  get d inc = get d inc' ->
  (get m1 inc = get m1 inc' \/ d2 m1 = 0) ->
  (get m2 inc = get m2 inc' \/ d2 m2 = 0) ->
  quiet d2 m1 m2 w ->
  line_step d m1 m2 d2 inc w = line_step d m1 m2 d2 inc' w /\
  quiet d2 m1 m2 (line_step d m1 m2 d2 inc w).
Proof.
  intros Hd H1 H2 [Q1 Q2].
  assert (E1 : 0 < err_1 w -> get m1 inc = get m1 inc').
  { intros G. destruct H1 as [E | Z1]; [exact E | specialize (Q1 Z1); lia]. }
  assert (E2 : 0 < err_2 w -> get m2 inc = get m2 inc').
  { intros G. destruct H2 as [E | Z2]; [exact E | specialize (Q2 Z2); lia]. }
  unfold line_step, quiet.
  destruct (Z.gtb_spec (err_1 w) 0) as [G1|G1];
    destruct (Z.gtb_spec (err_2 w) 0) as [G2|G2];
    cbn [err_1 err_2 cur]; rewrite ?(E1 G1), ?(E2 G2), Hd;
    (split; [reflexivity|]); split; intros Z';
    try specialize (Q1 Z'); try specialize (Q2 Z'); lia.
Qed.

Lemma line_loop_agree d m1 m2 d2 inc inc' keep n : forall w pts,
  get d inc = get d inc' ->
  (get m1 inc = get m1 inc' \/ d2 m1 = 0) ->
  (get m2 inc = get m2 inc' \/ d2 m2 = 0) ->
  quiet d2 m1 m2 w ->
  line_loop d m1 m2 d2 inc keep n w pts
  = line_loop d m1 m2 d2 inc' keep n w pts.
Proof.
  induction n as [|n IH]; intros w pts Hd H1 H2 Q; cbn [line_loop];
    [reflexivity|].
  destruct (line_step_agree d m1 m2 d2 inc inc' w Hd H1 H2 Q) as [<- Q'].
  destruct (keep (cur (line_step d m1 m2 d2 inc w))); [|reflexivity].
  apply IH; assumption.
Qed.

Lemma doubled_zero Adx Ady Adz a :
  doubled Adx Ady Adz a = 0 <-> delta_of Adx Ady Adz a = 0.
Proof. destruct a; simpl; lia. Qed.

Lemma line_blocks_agree Adx Ady Adz inc inc' keep p points :
  0 <= Adx -> 0 <= Ady -> 0 <= Adz ->
  agree (delta_of Adx Ady Adz) inc inc' ->
  line_blocks Adx Ady Adz inc keep p points
  = line_blocks Adx Ady Adz inc' keep p points.
Proof.
  intros Hx Hy Hz Hag. rewrite !line_blocks_driving. unfold driven_loop.
  set (d := driving Adx Ady Adz).
  assert (Hpos : forall a, 0 <= delta_of Adx Ady Adz a)
    by (intros a; destruct a; simpl; lia).
  destruct (Z.eq_dec (delta_of Adx Ady Adz d) 0) as [Hz0 | Hnz].
  - rewrite Hz0. reflexivity.
  - rewrite (line_loop_agree d (minor1 d) (minor2 d) (doubled Adx Ady Adz)
               inc inc'); [reflexivity | | | |].
    + destruct (Hag d) as [E | E]; [exact E | contradiction].
    + destruct (Hag (minor1 d)) as [E | E]; [left; exact E|].
      right. apply doubled_zero. exact E.
    + destruct (Hag (minor2 d)) as [E | E]; [left; exact E|].
      right. apply doubled_zero. exact E.
    + unfold quiet. cbn [err_1 err_2]. rewrite !doubled_zero.
      pose proof (Hpos d). split; intros ->; lia.
Qed.

Lemma bresenham_agree fuel : forall current direction direction' inc inc'
                                    bound points,
  Z.abs (s0 direction) = Z.abs (s0 direction') ->
  Z.abs (s1 direction) = Z.abs (s1 direction') ->
  Z.abs (s2 direction) = Z.abs (s2 direction') ->
  agree (delta_of (Z.abs (s0 direction)) (Z.abs (s1 direction))
                  (Z.abs (s2 direction))) inc inc' ->
  bresenham fuel current direction inc bound points
  = bresenham fuel current direction' inc' bound points.
Proof.
  induction fuel as [|fuel IH]; intros current direction direction' inc inc'
    bound points E0 E1 E2 Hag; cbn [bresenham]; [reflexivity|].
  cbv zeta. rewrite <- E0, <- E1, <- E2.
  rewrite (line_blocks_agree _ _ _ inc inc'); try exact Hag;
    try apply Z.abs_nonneg.
  destruct (line_blocks _ _ _ inc' _ _ _) as [q pts].
  destruct (negb (out_of_canvas q bound)); [|reflexivity].
  apply IH; assumption.
Qed.

Lemma signs_negated_agree direction :
  agree (delta_of (Z.abs (s0 direction)) (Z.abs (s1 direction))
                  (Z.abs (s2 direction)))
        (opposite (signs direction)) (signs (negated direction)) /\
  agree (delta_of (Z.abs (s0 direction)) (Z.abs (s1 direction))
                  (Z.abs (s2 direction)))
        (signs direction) (opposite (signs (negated direction))).
Proof.
  unfold agree, opposite, signs, negated.
  split; intros a; destruct a; cbn [get delta_of s0 s1 s2];
    repeat match goal with
           | |- context [?v >? 0] => destruct (Z.gtb_spec v 0)
           end; lia.
Qed.

(** X21: rasterising the line through a point with the negated direction
    returns the same points in the reverse order, for every fuel. *)
Theorem get_line_points_negated fuel point direction bound :
  get_line_points fuel point (negated direction) bound
  = (l <- get_line_points fuel point direction bound ;; Ret (rev l)).
Proof.
  destruct ((s0 direction =? 0) && (s1 direction =? 0) && (s2 direction =? 0))
    eqn:Hz.
  - apply andb_true_iff in Hz. destruct Hz as [Hz H2].
    apply andb_true_iff in Hz. destruct Hz as [H0 H1].
    apply Z.eqb_eq in H0, H1, H2. destruct direction as [x y z].
    cbn [s0 s1 s2] in *. subst. reflexivity.
  - assert (Hz' : nonzero (negated direction)).
    { unfold nonzero, negated. cbn [s0 s1 s2].
      destruct (Z.eqb_spec (s0 direction) 0), (Z.eqb_spec (s1 direction) 0),
        (Z.eqb_spec (s2 direction) 0); cbn [andb] in Hz; try discriminate;
        destruct (Z.eqb_spec (- s0 direction) 0),
          (Z.eqb_spec (- s1 direction) 0), (Z.eqb_spec (- s2 direction) 0);
        cbn [andb]; try reflexivity; lia. }
    rewrite (get_line_points_unfold _ _ _ _ Hz'),
      (get_line_points_unfold _ _ _ _ Hz).
    destruct (signs_negated_agree direction) as [A1 A2].
    assert (N0 : Z.abs (s0 direction) = Z.abs (s0 (negated direction)))
      by (cbn [negated s0]; lia).
    assert (N1 : Z.abs (s1 direction) = Z.abs (s1 (negated direction)))
      by (cbn [negated s1]; lia).
    assert (N2 : Z.abs (s2 direction) = Z.abs (s2 (negated direction)))
      by (cbn [negated s2]; lia).
    rewrite <- (bresenham_agree fuel point direction (negated direction)
                  (opposite (signs direction)) (signs (negated direction))
                  bound [] N0 N1 N2 A1).
    rewrite <- (bresenham_agree fuel point direction (negated direction)
                  (signs direction) (opposite (signs (negated direction)))
                  bound [] N0 N1 N2 A2).
    destruct (bresenham_cases fuel point direction
                (opposite (signs direction)) bound []) as [[neg ->] | ->];
      destruct (bresenham_cases fuel point direction (signs direction)
                  bound []) as [[pos ->] | ->];
      cbn [bind]; try reflexivity.
    rewrite rev_app_distr. cbn [rev]. rewrite rev_involutive, <- app_assoc.
    reflexivity.
Qed.

(** ** Lines in a direction with [double] components *)

Lemma double_to_int_small x : (-1 < x < 1)%R -> double_to_int x = 0.
Proof.
  intros Hx. unfold double_to_int. destruct (Rle_dec 0 x) as [Hle | Hlt].
  - symmetry. apply Int_part_spec. simpl. lra.
  - replace (Int_part (- x)) with 0; [reflexivity|].
    apply Int_part_spec. simpl. lra.
Qed.

Lemma Int_part_nonneg x : (0 <= x)%R -> 0 <= Int_part x.
Proof.
  intros Hx. destruct (base_Int_part x) as [_ H].
  assert (IZR (-1) < IZR (Int_part x))%R as Hlt by (simpl; lra).
  apply lt_IZR in Hlt. lia.
Qed.

Lemma double_to_int_sign x :
  double_to_int x <> 0 ->
  double_sign x = if double_to_int x >? 0 then 1 else -1.
Proof.
  unfold double_to_int, double_sign. destruct (Rle_dec 0 x) as [Hle | Hlt].
  - intros Hnz. pose proof (Int_part_nonneg x Hle) as Hp.
    destruct (base_Int_part x) as [Hb _].
    assert (IZR 1 <= IZR (Int_part x))%R as H1 by (apply IZR_le; lia).
    destruct (Rgt_dec x 0) as [_ | Hn]; [|exfalso; apply Hn; lra].
    destruct (Z.gtb_spec (Int_part x) 0); [reflexivity | lia].
  - intros Hnz.
    assert (Hp : 0 <= Int_part (- x)) by (apply Int_part_nonneg; lra).
    destruct (Rgt_dec x 0) as [Hg | _]; [exfalso; lra|].
    destruct (Z.gtb_spec (- Int_part (- x)) 0); [lia | reflexivity].
Qed.

Lemma double_to_int_integral z : double_to_int (IZR z) = z.
Proof.
  unfold double_to_int. destruct (Rle_dec 0 (IZR z)) as [Hle | Hlt].
  - symmetry. apply Int_part_spec. lra.
  - rewrite <- opp_IZR. replace (Int_part (IZR (- z))) with (- z); [lia|].
    apply Int_part_spec. lra.
Qed.


Lemma nonzero_truncated direction :
  nonzero (truncated direction) -> nonzero_double direction.
Proof.
  unfold nonzero, nonzero_double, truncated, double_is_zero.
  cbn [s0 s1 s2]. intros H.
  destruct (Req_EM_T (r0 direction) 0) as [E0|]; [|reflexivity].
  destruct (Req_EM_T (r1 direction) 0) as [E1|]; [|reflexivity].
  destruct (Req_EM_T (r2 direction) 0) as [E2|]; [|reflexivity].
  rewrite E0, E1, E2 in H.
  rewrite (double_to_int_small 0) in H by lra. discriminate.
Qed.

Lemma get_line_points_double_unfold fuel point direction bound :
  nonzero_double direction ->
  get_line_points_double fuel point direction bound =
  (pos <- bresenham fuel point (truncated direction) (double_signs direction)
                    bound [] ;;
   neg <- bresenham fuel point (truncated direction)
                    (opposite (double_signs direction)) bound [] ;;
   Ret (rev neg ++ point :: pos)).
Proof.
  unfold nonzero_double, get_line_points_double. intros ->. cbv zeta.
  change (mkScalar (-1 * double_sign (r0 direction))
                   (-1 * double_sign (r1 direction))
                   (-1 * double_sign (r2 direction)))
    with (opposite (double_signs direction)).
  change (mkScalar (double_sign (r0 direction)) (double_sign (r1 direction))
                   (double_sign (r2 direction)))
    with (double_signs direction).
  destruct (bresenham fuel point (truncated direction)
                      (double_signs direction) bound [])
    as [pos| | |] eqn:E1; cbn [bind]; try reflexivity.
  rewrite bresenham_acc.
  destruct (bresenham fuel point (truncated direction)
                      (opposite (double_signs direction)) bound [])
    as [neg| | |]; cbn [bind]; try reflexivity.
  rewrite !rev_app_distr, rev_involutive. reflexivity.
Qed.

(** Where a component of the direction converts to a nonzero [int], the
    increment read from the double is the one read from the [int]. *)
Lemma double_signs_agree direction :
  let t := truncated direction in
  agree (delta_of (Z.abs (s0 t)) (Z.abs (s1 t)) (Z.abs (s2 t)))
        (double_signs direction) (signs t) /\
  agree (delta_of (Z.abs (s0 t)) (Z.abs (s1 t)) (Z.abs (s2 t)))
        (opposite (double_signs direction)) (opposite (signs t)).
Proof.
  cbv zeta. unfold agree, opposite, signs, double_signs, truncated.
  split; intros a; destruct a; cbn [get delta_of s0 s1 s2];
    match goal with
    | |- context [double_sign ?x] =>
        destruct (Z.eq_dec (double_to_int x) 0) as [E | E];
        [right; rewrite E; reflexivity
        | left; rewrite (double_to_int_sign x E); reflexivity]
    end.
Qed.

(** For a direction that converts to a nonzero integer vector,
    [get_line_points_double] is [get_line_points] on the converted
    direction. *)
Lemma get_line_points_double_truncated fuel point direction bound :
  nonzero (truncated direction) ->
  get_line_points_double fuel point direction bound
  = get_line_points fuel point (truncated direction) bound.
Proof.
  intros Hnz.
  rewrite (get_line_points_double_unfold _ _ _ _ (nonzero_truncated _ Hnz)),
    (get_line_points_unfold _ _ _ _ Hnz).
  destruct (double_signs_agree direction) as [A1 A2]. cbv zeta in A1, A2.
  rewrite (bresenham_agree fuel point (truncated direction)
             (truncated direction) (double_signs direction)
             (signs (truncated direction)) bound [] eq_refl eq_refl eq_refl A1).
  rewrite (bresenham_agree fuel point (truncated direction)
             (truncated direction) (opposite (double_signs direction))
             (opposite (signs (truncated direction))) bound []
             eq_refl eq_refl eq_refl A2).
  reflexivity.
Qed.

(** On an integer-valued direction [get_line_points_double] is
    [get_line_points]. *)
Lemma get_line_points_integral fuel point direction bound :
  get_line_points_double fuel point (integral direction) bound
  = get_line_points fuel point direction bound.
Proof.
  assert (T : truncated (integral direction) = direction).
  { unfold truncated, integral. cbn [r0 r1 r2].
    rewrite !double_to_int_integral. destruct direction; reflexivity. }
  destruct ((s0 direction =? 0) && (s1 direction =? 0) && (s2 direction =? 0))
    eqn:Hz.
  - apply andb_true_iff in Hz. destruct Hz as [Hz H2].
    apply andb_true_iff in Hz. destruct Hz as [H0 H1].
    apply Z.eqb_eq in H0, H1, H2. destruct direction as [x y z].
    cbn [s0 s1 s2] in *. subst.
    unfold get_line_points_double, integral, double_is_zero.
    cbn [r0 r1 r2 s0 s1 s2].
    destruct (Req_EM_T 0 0) as [_ | N]; [reflexivity | contradiction].
  - rewrite get_line_points_double_truncated; rewrite T; [reflexivity|].
    exact Hz.
Qed.

(** With the three deltas 0 no loop runs: from a point of the canvas the
    recursion goes on from the same point, without end. *)
Lemma bresenham_stuck inc bound current :
  out_of_canvas current bound = false ->
  forall fuel points,
    bresenham fuel current (mkScalar 0 0 0) inc bound points = OutOfFuel.
Proof.
  intros Hin. induction fuel as [|fuel IH]; intros points; [reflexivity|].
  cbn [bresenham s0 s1 s2 Z.abs]. unfold line_blocks.
  cbn [Z.geb Z.gtb Z.compare andb Z.to_nat line_loop cur Z.mul].
  rewrite Hin. cbn [negb]. apply IH.
Qed.

(** C4: the claim fails on the code.  For a direction that is not the zero
    vector but whose components all lie strictly between -1 and 1, and a
    seed point in the canvas, [get_line_points] does not return: the three
    deltas of [bresenham] are the components converted to [int], all 0, and
    its recursion never ends (the embedding exhausts every fuel). *)
Theorem get_line_points_small_direction point direction bound :
  nonzero_double direction ->
  small direction ->
  out_of_canvas point bound = false ->
  forall fuel, get_line_points_double fuel point direction bound = OutOfFuel.
Proof.
  intros Hnz (H0 & H1 & H2) Hin fuel.
  rewrite (get_line_points_double_unfold _ _ _ _ Hnz).
  unfold truncated.
  rewrite (double_to_int_small _ H0), (double_to_int_small _ H1),
    (double_to_int_small _ H2).
  rewrite (bresenham_stuck _ _ _ Hin). reflexivity.
Qed.

Lemma get_line_points_small_direction_witness :
  nonzero_double (mkScalarR (6 / 10) (8 / 10) 0) /\
  small (mkScalarR (6 / 10) (8 / 10) 0) /\
  out_of_canvas (mkScalar 2 1 0) (mkScalar 5 3 1) = false /\
  forall fuel,
    get_line_points_double fuel (mkScalar 2 1 0)
                           (mkScalarR (6 / 10) (8 / 10) 0) (mkScalar 5 3 1)
    = OutOfFuel.
Proof.
  assert (Hnz : nonzero_double (mkScalarR (6 / 10) (8 / 10) 0)).
  { unfold nonzero_double, double_is_zero. cbn [r0 r1 r2].
    destruct (Req_EM_T (6 / 10) 0) as [E | _]; [exfalso; lra | reflexivity]. }
  assert (Hs : small (mkScalarR (6 / 10) (8 / 10) 0)).
  { unfold small. cbn [r0 r1 r2]. lra. }
  split; [exact Hnz|]. split; [exact Hs|]. split; [reflexivity|].
  apply (get_line_points_small_direction (mkScalar 2 1 0)
           (mkScalarR (6 / 10) (8 / 10) 0) (mkScalar 5 3 1) Hnz Hs).
  reflexivity.
Defined.

(** *** A ray ends where the next step leaves the canvas *)




Lemma last_in_cons (p : Scalar) l : In (last l p) (p :: l).
Proof.
  revert p; induction l as [|q l IH]; intros p; [left; reflexivity|].
  rewrite last_cons_default. right. apply IH.
Qed.




Lemma truncated_example :
  truncated (mkScalarR 1 (1 / 2) 0) = mkScalar 1 0 0.
Proof.
  unfold truncated. cbn [r0 r1 r2].
  rewrite (double_to_int_integral 1), (double_to_int_integral 0).
  rewrite (double_to_int_small (1 / 2)) by lra. reflexivity.
Qed.


(** *** Extent of a line through a point of the canvas *)

(** X19: for a direction of which at least one component converts to a
    nonzero [int], and a seed point in the canvas, [get_line_points]
    returns within a recursion depth of the canvas size on the driving
    axis plus one, and returns at most as many points as the canvas is
    wide on the driving axis. *)
Theorem get_line_points_extent point direction bound :
  nonzero (truncated direction) ->
  out_of_canvas point bound = false ->
  let n := Z.to_nat (get (driving_of (truncated direction)) bound) in
  (exists l, get_line_points_double (S n) point direction bound = Ret l) /\
  forall fuel l,
    get_line_points_double fuel point direction bound = Ret l ->
    (1 <= length l <= n)%nat.
Proof.
  intros Hnz Hin n.
  set (t := truncated direction) in *.
  set (d := driving_of t) in *.
  pose proof (in_canvas_get bound point d Hin) as Hp.
  split.
  - rewrite (get_line_points_double_truncated _ _ _ _ Hnz). fold t.
    rewrite (get_line_points_unfold _ _ _ _ Hnz).
    destruct (bresenham_terminates t (signs t) bound Hnz
                (signs_unit t d) (S n) point []) as [pos ->].
    { fold d. unfold ray_measure.
      destruct (get d (signs t) >? 0); subst n; lia. }
    destruct (bresenham_terminates t (opposite (signs t)) bound
                Hnz (opposite_unit _ _ (signs_unit t d)) (S n) point [])
      as [neg ->].
    { fold d. unfold ray_measure.
      destruct (get d (opposite (signs t)) >? 0); subst n; lia. }
    cbn [bind]. eexists; reflexivity.
  - intros fuel l H.
    rewrite (get_line_points_double_truncated _ _ _ _ Hnz) in H. fold t in H.
    pose proof (get_line_points_canvas _ _ _ _ _ H) as Hcan.
    pose proof (get_line_points_ordered _ _ _ _ _ Hnz H) as Ho.
    destruct (get_line_points_shape _ _ _ _ _ Hnz H) as (neg & pos & _ & _ & E).
    destruct l as [|p0 rest].
    { symmetry in E. apply app_eq_nil in E. destruct E as [_ E]. discriminate. }
    cbn [ordered] in Ho. apply chain_follows_drive in Ho. fold d in Ho.
    assert (Hall : Forall (fun q => out_of_canvas q bound = false) (p0 :: rest)).
    { eapply Forall_impl; [|exact Hcan]. intros q [Hq | ->]; assumption. }
    rewrite Forall_forall in Hall.
    pose proof (in_canvas_get bound p0 d (Hall p0 (or_introl eq_refl))) as H0.
    pose proof (in_canvas_get bound _ d (Hall _ (last_in_cons p0 rest))) as H1.
    cbn [length]. subst n.
    destruct (signs_unit t d) as [U | U]; rewrite U in Ho; lia.
Qed.

Lemma get_line_points_extent_witness :
  nonzero (truncated (mkScalarR 1 (1 / 2) 0)) /\
  out_of_canvas (mkScalar 2 1 0) (mkScalar 5 3 1) = false /\
  exists l,
    get_line_points_double
      (S (Z.to_nat (get (driving_of (truncated (mkScalarR 1 (1 / 2) 0)))
                        (mkScalar 5 3 1))))
      (mkScalar 2 1 0) (mkScalarR 1 (1 / 2) 0) (mkScalar 5 3 1) = Ret l.
Proof.
  assert (Hnz : nonzero (truncated (mkScalarR 1 (1 / 2) 0)))
    by (rewrite truncated_example; reflexivity).
  split; [exact Hnz|]. split; [reflexivity|].
  exact (proj1 (get_line_points_extent (mkScalar 2 1 0)
                  (mkScalarR 1 (1 / 2) 0) (mkScalar 5 3 1) Hnz eq_refl)).
Defined.
